(** * wiretie: a shallow embedding of [src/index.js] and [src/util.js]

    The adapter built by [wire(contextNamespace, mapToProps, mapModelToProps)]
    is modelled as explicit state passing over two records: the [world]
    (what one [wire(...)] configuration and the JS heap share: the value
    cache [CACHE], the [__wiretieResolved] field of each promise, the log of
    calls made to user functions, the next object identity) and the
    [component] (the fields of one [WireDataWrapper] instance, with the
    reaction chains it has attached to promises).

    Conventions of the model:
    - JS objects used as maps ([props], [state], [currentKeys], [tracking],
      [CACHE]) are [gmap]s keyed by strings; objects that travel as values
      (descriptors, the [pending] and [rejected] sets, model objects) are
      association lists in enumeration order, tagged with the identity of the
      object so that [===] can be decided;
    - numbers are the integers and NaN; infinities and fractions are outside
      the model;
    - a plain object inherits the members of [Object.prototype], which are
      listed; what a read of any other built-in member yields (the methods
      of arrays, strings, functions, promises) is not modelled: a run that
      depends on it ends with [Beyond], the outcome of which nothing is
      stated, and so does a run that reaches one of the other places marked
      below where the maps of this embedding stop being the objects of the
      program;
    - user code (model methods, a callable path, a functional [mapToProps])
      is an oracle: it returns a value and has no other effect on the adapter;
    - the three reactions of [p.then(..).catch(..).then(..)] are the functions
      [on_resolve], [on_reject] and [on_settled]; [settle] runs the chain of
      one settlement to its end;
    - an exception ends a lifecycle call with [Throw]; what the host does with
      the instance afterwards is not modelled. *)

From Stdlib Require Import ZArith Ascii String List Bool Lia.
From stdpp Require Import base option list gmap strings pretty.

Local Open Scope string_scope.
Local Open Scope list_scope.

(** ** JavaScript values *)

#[local] Unset Elimination Schemes.
Inductive value : Type :=
| VUndef
| VNull
| VBool (b : bool)
| VNum (n : Z)
| VStr (s : string)
| VArr (r : nat) (xs : list value)
| VObj (r : nat) (fs : list (string * value))
| VFun (r : nat)
| VPromise (r : nat)
| VNaN
| VNative (name : string).
#[local] Set Elimination Schemes.

(** [VNative name] is a built-in of the realm, known by its name: the
    functions that [Object.prototype] and [Promise.prototype] hand to every
    object, and [Object.prototype] itself, the one built-in here that is not
    a function. *)
Definition native_callable (name : string) : bool :=
  negb (String.eqb name "Object.prototype").

(** [typeof v] *)
Definition typeof (v : value) : string :=
  match v with
  | VUndef => "undefined"
  | VNull => "object"
  | VBool _ => "boolean"
  | VNum _ => "number"
  | VStr _ => "string"
  | VArr _ _ | VObj _ _ | VPromise _ => "object"
  | VFun _ => "function"
  | VNaN => "number"
  | VNative n => if native_callable n then "function" else "object"
  end.

(** The truthiness test of [if (v)], [!v], [a && b] and [a || b]. *)
Definition truthy (v : value) : bool :=
  match v with
  | VUndef | VNull => false
  | VBool b => b
  | VNum n => negb (n =? 0)%Z
  | VStr s => negb (String.eqb s "")
  | VArr _ _ | VObj _ _ | VFun _ | VPromise _ | VNative _ => true
  | VNaN => false
  end.

(** [a === b]: primitives by value, objects by identity; NaN is not equal to
    anything, itself included. *)
Definition strict_eq (a b : value) : bool :=
  match a, b with
  | VUndef, VUndef | VNull, VNull => true
  | VBool x, VBool y => Bool.eqb x y
  | VNum x, VNum y => (x =? y)%Z
  | VStr x, VStr y => String.eqb x y
  | VArr r _, VArr r' _ | VObj r _, VObj r' _
  | VFun r, VFun r' | VPromise r, VPromise r' => Nat.eqb r r'
  | VNative x, VNative y => String.eqb x y
  | _, _ => false
  end.

(** A missing property reads as [undefined]. *)
Definition or_undef (o : option value) : value := default VUndef o.

(** ** Objects carried as values *)

Fixpoint assoc_get (k : string) (fs : list (string * value)) : option value :=
  match fs with
  | [] => None
  | (k', v) :: fs' => if String.eqb k k' then Some v else assoc_get k fs'
  end.

(** [obj[k] = v] on the property list: overwrite in place, or append. *)
Fixpoint assoc_set (k : string) (v : value) (fs : list (string * value))
  : list (string * value) :=
  match fs with
  | [] => [(k, v)]
  | (k', v') :: fs' =>
      if String.eqb k k' then (k, v) :: fs' else (k', v') :: assoc_set k v fs'
  end.

(** [delete obj[k]] *)
Fixpoint assoc_del (k : string) (fs : list (string * value))
  : list (string * value) :=
  match fs with
  | [] => []
  | (k', v') :: fs' =>
      if String.eqb k k' then assoc_del k fs' else (k', v') :: assoc_del k fs'
  end.

(** The own enumerable properties of a value, as [{ ...v }] copies them. *)
Definition fields_of (v : value) : list (string * value) :=
  match v with
  | VObj _ fs => fs
  | _ => []
  end.

(** The members every plain object inherits: the properties of
    [Object.prototype] (ECMAScript 2015, with the accessors of its annex B).
    The [__proto__] accessor yields the prototype itself. *)
Definition Object_prototype : list (string * value) :=
  [("constructor", VNative "Object");
   ("__defineGetter__", VNative "Object.prototype.__defineGetter__");
   ("__defineSetter__", VNative "Object.prototype.__defineSetter__");
   ("hasOwnProperty", VNative "Object.prototype.hasOwnProperty");
   ("__lookupGetter__", VNative "Object.prototype.__lookupGetter__");
   ("__lookupSetter__", VNative "Object.prototype.__lookupSetter__");
   ("isPrototypeOf", VNative "Object.prototype.isPrototypeOf");
   ("propertyIsEnumerable", VNative "Object.prototype.propertyIsEnumerable");
   ("toString", VNative "Object.prototype.toString");
   ("valueOf", VNative "Object.prototype.valueOf");
   ("__proto__", VNative "Object.prototype");
   ("toLocaleString", VNative "Object.prototype.toLocaleString")].

Definition inherited (k : string) : option value := assoc_get k Object_prototype.

(** [v[k]] on a truthy [v], where the embedding can tell: an own property of
    a plain object or else the member it inherits, an element of an array or
    its length. [None] stands for every other read: it reaches into
    built-ins that are not listed here. *)
Definition read (v : value) (k : string) : option value :=
  match v with
  | VObj _ fs =>
      Some (match assoc_get k fs with
            | Some x => x
            | None => or_undef (inherited k)
            end)
  | VArr _ xs =>
      match find (fun i => String.eqb (pretty i) k) (seq 0 (length xs)) with
      | Some i => Some (nth i xs VUndef)
      | None =>
          if String.eqb k "length" then Some (VNum (Z.of_nat (length xs)))
          else None
      end
  | _ => None
  end.

(** [v[k]] where [v] is a plain object or [v &&] has guarded the read. *)
Definition get_field (v : value) (k : string) : value := or_undef (read v k).

(** [k in obj] and [obj[k]] for the objects kept as maps ([props], [state]):
    both follow the prototype chain. *)
Definition has_property (obj : gmap string value) (k : string) : bool :=
  bool_decide (is_Some (obj !! k)) || bool_decide (is_Some (inherited k)).

Definition property (obj : gmap string value) (k : string) : value :=
  match obj !! k with
  | Some v => v
  | None => or_undef (inherited k)
  end.

(** [v.hasOwnProperty(k)] *)
Definition hasOwnProperty (v : value) (k : string) : bool :=
  bool_decide (is_Some (assoc_get k (fields_of v))).

(** ** src/util.js *)

(** [join(arr)]: [arr ? arr.join('\n') : ''] *)
Definition newline : string := String (ascii_of_nat 10) EmptyString.

Fixpoint array_join (sep : string) (l : list string) : string :=
  match l with
  | [] => ""
  | [x] => x
  | x :: l' => x +:+ sep +:+ array_join sep l'
  end.

Definition join (arr : option (list string)) : string :=
  match arr with
  | Some l => array_join newline l
  | None => ""
  end.

(** [get(obj, key)]: [key ? obj[key] : obj]; [None] where the read is not
    covered (a key that is not a string, an [obj] that [read] does not
    cover). *)
Definition get (obj : value) (key : value) : option value :=
  if truthy key then
    match key with
    | VStr k => read obj k
    | _ => None
    end
  else Some obj.

(** [shallowEqual(a, b)]:
    [for (let key in a) if (a[key]!==b[key]) return false;
     for (let key in b) if (!(key in a)) return false;
     return true;] *)
Definition shallowEqual (a b : gmap string value) : bool :=
  forallb (fun kv => strict_eq kv.2 (property b kv.1)) (map_to_list a)
  && forallb (fun kv => has_property a kv.1) (map_to_list b).

(** [removeKeyFromObject(key, obj)]:
    [if (obj.hasOwnProperty(key)) { obj = { ...obj }; delete obj[key]; }
     return obj;]
    The clone is a new object; [fresh] is the identity it receives.
    [obj.hasOwnProperty] is taken for the inherited built-in: the callers
    below stop at a set that has a property of that name ([plain_set]). *)
Definition removeKeyFromObject (fresh : nat) (key : string) (obj : value) : value :=
  if hasOwnProperty obj key
  then VObj fresh (assoc_del key (fields_of obj))
  else obj.

(** What [state.pending] and [state.rejected] are when only the adapter
    writes them and no mapped property is called [hasOwnProperty]: a falsy
    value, or a plain object in which [hasOwnProperty] is the inherited
    method. On these the reads, the spreads and [removeKeyFromObject] are
    as modelled. *)
Definition plain_set (v : value) : bool :=
  negb (truthy v)
  || match v with
     | VObj _ _ => negb (hasOwnProperty v "hasOwnProperty")
     | _ => false
     end.

(** The property names for which an object used as a map behaves as a map:
    assigning [__proto__] sets no property, and a mapping with an entry
    [hasOwnProperty] hides the method the loop of [invoke] calls on it. *)
Definition ordinary (prop : string) : bool :=
  negb (String.eqb prop "__proto__") && negb (String.eqb prop "hasOwnProperty").

(** ** [JSON.stringify]

    The serialisation of a value in element position (inside an array or as a
    property value). [undefined] and functions print as [null] inside an
    array and are left out of an object; NaN prints as [null] everywhere.
    Integers print in decimal, which is what JS does for the integers up to
    [2^53 - 1]. A promise is printed as an object without enumerable
    properties, which it is until the adapter adds [__wiretieResolved] to
    it, and a [toJSON] method is not called: the values for which the text
    below is the text of the program are the [json_plain] ones, and an
    attempted invocation whose key is made of other values ends with
    [Beyond]. (The keys-only pass makes no invocation and is not stopped;
    its keys are those of the program for [json_plain] values.) *)

Definition dquote : ascii := ascii_of_nat 34.
Definition backslash : ascii := ascii_of_nat 92.

Definition hex_digit (n : N) : ascii :=
  match n with
  | 0 => "0" | 1 => "1" | 2 => "2" | 3 => "3" | 4 => "4" | 5 => "5"
  | 6 => "6" | 7 => "7" | 8 => "8" | 9 => "9" | 10 => "a" | 11 => "b"
  | 12 => "c" | 13 => "d" | 14 => "e" | _ => "f"
  end%char%N.

(** One code unit of a quoted JSON string. *)
Definition escape_char (c : ascii) : string :=
  match N_of_ascii c with
  | 34 => String backslash (String dquote "")
  | 92 => String backslash (String backslash "")
  | 8 => String backslash "b"
  | 12 => String backslash "f"
  | 10 => String backslash "n"
  | 13 => String backslash "r"
  | 9 => String backslash "t"
  | n =>
      if (n <? 32)%N
      then String backslash
             (String "u" (String "0" (String "0"
                (String (hex_digit (n / 16)) (String (hex_digit (n mod 16)) "")))))
      else String c ""
  end%N.

Fixpoint escape (s : string) : string :=
  match s with
  | EmptyString => ""
  | String c s' => escape_char c +:+ escape s'
  end.

Definition quote (s : string) : string :=
  String dquote (escape s +:+ String dquote "").

(** Values that [JSON.stringify] leaves out of an object. *)
Definition omitted (v : value) : bool :=
  match v with
  | VUndef | VFun _ => true
  | VNative n => native_callable n
  | _ => false
  end.

Fixpoint stringify (v : value) : string :=
  match v with
  | VUndef | VNull | VFun _ => "null"
  | VBool b => if b then "true" else "false"
  | VNum n => pretty n
  | VStr s => quote s
  | VArr _ xs => "[" +:+ array_join "," (map stringify xs) +:+ "]"
  | VObj _ fs =>
      "{" +:+ array_join ","
        ((fix members (fs : list (string * value)) : list string :=
            match fs with
            | [] => []
            | (k, x) :: fs' =>
                if omitted x then members fs'
                else (quote k +:+ ":" +:+ stringify x) :: members fs'
            end) fs) +:+ "}"
  | VPromise _ => "{}"
  | VNaN => "null"
  | VNative n => if native_callable n then "null" else "{}"
  end.

(** Values whose serialisation is as above whatever has happened to the
    promises: no promise inside, no callable [toJSON] property, and no
    integer that JS would print with an exponent or cannot hold. *)
Fixpoint json_plain (v : value) : bool :=
  match v with
  | VPromise _ => false
  | VNum n => (Z.abs n <=? 9007199254740991)%Z
  | VArr _ xs => forallb json_plain xs
  | VObj _ fs =>
      (fix all (l : list (string * value)) : bool :=
         match l with
         | [] => true
         | (k, x) :: l' =>
             negb (String.eqb k "toJSON" && String.eqb (typeof x) "function")
             && json_plain x && all l'
         end) fs
  | _ => true
  end.

(** ** [dlv(obj, key)]

    The dependency [dlv]: split the path at the dots and walk the object,
    [while (obj && p<key.length) obj = obj[key[p++]]], the result being
    [undefined] when the walk stops early. [None] when a read of the walk is
    not covered by [read]. *)

Fixpoint split_dots_aux (cur : string) (s : string) : list string :=
  match s with
  | EmptyString => [cur]
  | String c s' =>
      if Ascii.eqb c "." then cur :: split_dots_aux "" s'
      else split_dots_aux (cur +:+ String c "") s'
  end.

Definition split_dots (s : string) : list string := split_dots_aux "" s.

Definition delve (obj : value) (path : string) : option value :=
  fold_left (fun acc seg =>
               match acc with
               | Some o => if truthy o then read o seg else Some VUndef
               | None => None
               end)
            (split_dots path) (Some obj).

(** ** The adapter: configuration, shared world, component instance *)

(** User code is an oracle: [env n f args] is what function [f] returns when
    it is called on [args] after [n] earlier calls. *)
Definition oracle : Type := nat -> nat -> list value -> value.

(** [mapToProps] is an object of descriptors or a function of the props. *)
Inductive mapspec : Type :=
| MapObject (m : list (string * value))
| MapFunction (f : gmap string value -> list (string * value)).

Record config : Type := Config {
  contextNamespace : value;
  mapToProps : mapspec
}.

(** The reaction chain [p.then(..).catch(..).then(..)] of one invocation,
    with the variables its closures capture. *)
Record handler : Type := Handler {
  h_prop : string;
  h_key : string;
  h_id : nat;
  h_promise : nat
}.

Record world : Type := World {
  CACHE : gmap string value;
  resolved : gmap nat value;        (* [p.__wiretieResolved], by promise *)
  calls : list (nat * list value);  (* calls made to user functions *)
  fresh : nat                       (* identity of the next new object *)
}.

Record component : Type := Component {
  props : gmap string value;
  context : value;
  state : gmap string value;
  currentKeys : gmap string string;
  tracking : gmap string nat;
  counter : nat;
  keys : option (list string);
  mapping : gmap string value;      (* [mapModelToProps(model, props)] *)
  refresh_ref : nat;                (* identity of [this.refresh] *)
  reactions : list handler          (* chains attached by this instance *)
}.

Inductive exn : Type :=
| NotFound (ns : value) (path : string)  (* [Error(`${ns}.${path} not found.`)] *)
| TypeError.                             (* calling or writing to a non-object *)

(** How a lifecycle call or a reaction ends: normally, with an exception, or
    outside what this embedding covers. Nothing is stated of a call that ends
    with [Beyond]: the program does something there, the embedding does not
    say what. *)
Inductive result (A : Type) : Type :=
| Ok (a : A)
| Throw (e : exn)
| Beyond.
Arguments Ok {A} a.
Arguments Throw {A} e.
Arguments Beyond {A}.

Definition set_CACHE (f : gmap string value -> gmap string value) (w : world) : world :=
  World (f (CACHE w)) (resolved w) (calls w) (fresh w).
Definition set_resolved (f : gmap nat value -> gmap nat value) (w : world) : world :=
  World (CACHE w) (f (resolved w)) (calls w) (fresh w).
Definition log_call (f : nat) (args : list value) (w : world) : world :=
  World (CACHE w) (resolved w) (calls w ++ [(f, args)]) (fresh w).
Definition bump_fresh (w : world) : world :=
  World (CACHE w) (resolved w) (calls w) (S (fresh w)).

Definition set_props (p : gmap string value) (c : component) : component :=
  Component p (context c) (state c) (currentKeys c) (tracking c) (counter c)
            (keys c) (mapping c) (refresh_ref c) (reactions c).
Definition set_currentKey (prop key : string) (c : component) : component :=
  Component (props c) (context c) (state c) (<[prop := key]> (currentKeys c))
            (tracking c) (counter c) (keys c) (mapping c) (refresh_ref c)
            (reactions c).
Definition set_tracking (f : gmap string nat -> gmap string nat) (c : component) : component :=
  Component (props c) (context c) (state c) (currentKeys c) (f (tracking c))
            (counter c) (keys c) (mapping c) (refresh_ref c) (reactions c).
Definition incr_counter (c : component) : component :=
  Component (props c) (context c) (state c) (currentKeys c) (tracking c)
            (S (counter c)) (keys c) (mapping c) (refresh_ref c) (reactions c).
Definition set_keys (ks : list string) (c : component) : component :=
  Component (props c) (context c) (state c) (currentKeys c) (tracking c)
            (counter c) (Some ks) (mapping c) (refresh_ref c) (reactions c).
Definition attach (h : handler) (c : component) : component :=
  Component (props c) (context c) (state c) (currentKeys c) (tracking c)
            (counter c) (keys c) (mapping c) (refresh_ref c) (reactions c ++ [h]).

(** [this.setState(newState)], as Preact 8 (the version the test suite runs
    on) does it: the partial state is merged into [this.state] at once. *)
Definition setState (newState : gmap string value) (c : component) : component :=
  Component (props c) (context c) (newState ∪ state c) (currentKeys c)
            (tracking c) (counter c) (keys c) (mapping c) (refresh_ref c)
            (reactions c).

(** [new WireDataWrapper(props, context)] *)
Definition constructor (props0 : gmap string value) (ctx : value)
    (model_props : gmap string value) (refresh_id : nat) : component :=
  Component props0 ctx ∅ ∅ ∅ 0 None model_props refresh_id [].

Definition new_world (first_identity : nat) : world := World ∅ ∅ [] first_identity.

(** ** [invoke(props, keysOnly, refresh)] *)

Definition isFunction (cfg : config) : bool :=
  match mapToProps cfg with
  | MapFunction _ => true
  | MapObject _ => false
  end.

(** [isFunction ? mapToProps(props) : mapToProps] *)
Definition mapping_of (cfg : config) (props : gmap string value) : list (string * value) :=
  match mapToProps cfg with
  | MapFunction f => f props
  | MapObject m => m
  end.

(** [if (Array.isArray(path)) { args = path.slice(1); path = path[0]; }] *)
Definition split_descriptor (d : value) : value * list value :=
  match d with
  | VArr _ xs => (hd VUndef xs, tl xs)
  | _ => (d, [])
  end.

(** [p => typeof p==='string' && p in props ? props[p] : p] *)
Definition bind_arg (props : gmap string value) (p : value) : value :=
  match p with
  | VStr s => if has_property props s then property props s else p
  | _ => p
  end.

(** [if (!isFunction) args = args.map(...)] *)
Definition bind_args (isFun : bool) (props : gmap string value) (args : list value)
  : list value :=
  if isFun then args else map (bind_arg props) args.

(** [JSON.stringify([contextNamespace, path, ...args])]; the array literal is
    never observed, so its identity is immaterial. *)
Definition cache_key (ns path : value) (args : list value) : string :=
  stringify (VArr 0 (ns :: path :: args)).

(** The path, the bound arguments and the key of one entry of the mapping
    (lines 71 to 81). *)
Definition descriptor (cfg : config) (props : gmap string value) (d : value)
  : value * list value * string :=
  let '(path, args) := split_descriptor d in
  let args := bind_args (isFunction cfg) props args in
  (path, args, cache_key (contextNamespace cfg) path args).

(** [f(...args)]: the oracle answers and the call is logged. *)
Definition call (env : oracle) (f : nat) (args : list value) (w : world) : value * world :=
  (env (length (calls w)) f args, log_call f args w).

(** Lines 91 to 102: the value [p] of the descriptor. A function of the
    model is called through the oracle; what a call of a built-in function
    does is not modelled. *)
Definition resolve_path (env : oracle) (ns source path : value) (args : list value)
    (w : world) : result (value * world) :=
  match path with
  | VFun f => Ok (call env f [] w)
  | VNative n => if native_callable n then Beyond else Ok (path, w)
  | VStr s =>
      match delve source s with
      | None => Beyond
      | Some fn =>
          if negb (truthy fn) then Throw (NotFound ns s)
          else match fn with
               | VFun f => Ok (call env f args w)
               | VNative n => if native_callable n then Beyond else Throw TypeError
               | _ => Throw TypeError
               end
      end
  | _ => Ok (path, w)
  end.

(** [p.then]: the method of a promise, a property of a plain object; absent
    from every other value. *)
Definition then_of (p : value) : value :=
  match p with
  | VPromise _ => VNative "Promise.prototype.then"
  | VObj _ _ => get_field p "then"
  | _ => VUndef
  end.

Definition is_undefined (v : value) : bool :=
  match v with
  | VUndef => true
  | _ => false
  end.

(** [p && p.then!==undefined] *)
Definition thenable (p : value) : bool :=
  truthy p && negb (is_undefined (then_of p)).

(** [p.__wiretieResolved], read on a [p] that has a [then]. *)
Definition wiretieResolved (w : world) (p : value) : value :=
  match p with
  | VPromise r => or_undef (resolved w !! r)
  | VObj _ _ => get_field p "__wiretieResolved"
  | _ => VUndef
  end.

(** Lines 104 to 106. *)
Definition memoized (w : world) (p : value) : value :=
  if thenable p && truthy (wiretieResolved w p) then wiretieResolved w p else p.

Definition promise_ref (p : value) : nat :=
  match p with
  | VPromise r => r
  | _ => 0
  end.

(** Lines 111 to 161: a promise was returned for [prop]. *)
Definition start_async (prop key : string) (p : value) (wc : world * component)
  : world * component :=
  let '(w, c) := wc in
  let pending := or_undef (state c !! "pending") in
  let rejected := or_undef (state c !! "rejected") in
  let newState : gmap string value := ∅ in
  let '(newState, w) :=
    if negb (truthy pending)
    then (<["pending" := VObj (fresh w) [(prop, VBool true)]]> newState, bump_fresh w)
    else if negb (truthy (get_field pending prop))
    then (<["pending" := VObj (fresh w) (assoc_set prop (VBool true) (fields_of pending))]>
            newState, bump_fresh w)
    else (newState, w) in
  let '(newState, w) :=
    if truthy rejected && truthy (get_field rejected prop)
    then (<["rejected" := removeKeyFromObject (fresh w) prop rejected]> newState,
          bump_fresh w)
    else (newState, w) in
  let c := incr_counter c in
  let id := counter c in
  let c := set_tracking (<[prop := id]>) c in
  let c := attach (Handler prop key id (promise_ref p)) c in
  let newState :=
    match CACHE w !! key with
    | Some v => if String.eqb (typeof v) "undefined" then newState
                else <[prop := v]> newState
    | None => newState
    end in
  (w, setState newState c).

(** [p.then(...)] on a [p] that has a [then] but is no promise: a type error
    when [then] is not a function, and not modelled when it is. *)
Definition call_then (p : value) : result (world * component * list string) :=
  if String.eqb (typeof (then_of p)) "function" then Beyond else Throw TypeError.

(** One iteration of the loop over the mapping; [ks] collects the keys.
    Outside the keys-only pass the iteration is modelled when the key is
    made of [json_plain] values and, in the asynchronous branch, when
    [state.pending] and [state.rejected] are [plain_set]s. *)
Definition invoke_entry (cfg : config) (env : oracle) (props : gmap string value)
    (keysOnly refresh : bool) (source : value)
    (acc : world * component * list string) (entry : string * value)
  : result (world * component * list string) :=
  let '(w, c, ks) := acc in
  let '(prop, d) := entry in
  let '(path, args, key) := descriptor cfg props d in
  let ks := ks ++ [key] in
  if keysOnly then Ok (w, c, ks)
  else if negb (forallb json_plain (contextNamespace cfg :: path :: args)) then Beyond
  else if negb refresh && bool_decide (currentKeys c !! prop = Some key)
  then Ok (w, c, ks)
  else
    let c := set_currentKey prop key c in
    match resolve_path env (contextNamespace cfg) source path args w with
    | Throw e => Throw e
    | Beyond => Beyond
    | Ok (p, w) =>
        let p := memoized w p in
        if thenable p
        then
          if plain_set (or_undef (state c !! "pending"))
             && plain_set (or_undef (state c !! "rejected"))
          then match p with
               | VPromise _ =>
                   let '(w, c) := start_async prop key p (w, c) in Ok (w, c, ks)
               | _ => call_then p
               end
          else Beyond
        else Ok (w, setState {[prop := p]} c, ks)
    end.

Fixpoint invoke_loop (cfg : config) (env : oracle) (props : gmap string value)
    (keysOnly refresh : bool) (source : value)
    (acc : world * component * list string) (entries : list (string * value))
  : result (world * component * list string) :=
  match entries with
  | [] => Ok acc
  | e :: rest =>
      match invoke_entry cfg env props keysOnly refresh source acc e with
      | Ok acc' => invoke_loop cfg env props keysOnly refresh source acc' rest
      | Throw x => Throw x
      | Beyond => Beyond
      end
  end.

(** What the loop needs to be the loop of the program when it does more than
    compute keys: [ordinary] property names in the mapping, and a model
    object that [get] covers. *)
Definition in_scope (mapping : list (string * value)) (source : option value) : bool :=
  forallb (fun e => ordinary e.1) mapping && bool_decide (is_Some source).

(** [invoke] returns [this.keys = keys]; here the keys are read back from
    the component. The keys-only pass does not use the model object. *)
Definition invoke (cfg : config) (env : oracle) (props : gmap string value)
    (keysOnly refresh : bool) (wc : world * component) : result (world * component) :=
  let '(w, c) := wc in
  let source := get (context c) (contextNamespace cfg) in
  if negb keysOnly && negb (in_scope (mapping_of cfg props) source) then Beyond
  else
    match invoke_loop cfg env props keysOnly refresh (or_undef source) (w, c, [])
            (mapping_of cfg props) with
    | Ok (w, c, ks) => Ok (w, set_keys ks c)
    | Throw x => Throw x
    | Beyond => Beyond
    end.

(** ** The reactions of one invocation *)

(** [data => { p.__wiretieResolved = data; let newState = {};
      newState[prop] = CACHE[key] = data; return newState; }] *)
Definition on_resolve (h : handler) (data : value) (w : world)
  : world * gmap string value :=
  (set_CACHE (<[h_key h := data]>) (set_resolved (<[h_promise h := data]>) w),
   {[h_prop h := data]}).

(** [this.tracking[prop]!==id] *)
Definition stale (h : handler) (c : component) : bool :=
  negb (bool_decide (tracking c !! h_prop h = Some (h_id h))).

(** [err => { if (this.tracking[prop]!==id) return;
      let rejected = this.state.rejected && { ...this.state.rejected } || {};
      rejected[prop] = err; let newState = { rejected };
      if (CACHE[key]) newState[prop] = CACHE[key]; return newState; }] *)
Definition on_reject (h : handler) (err : value) (wc : world * component)
  : result (world * option (gmap string value)) :=
  let '(w, c) := wc in
  if stale h c then Ok (w, None)
  else
    let old := or_undef (state c !! "rejected") in
    if negb (plain_set old) then Beyond
    else
      let rejected := VObj (fresh w) (assoc_set (h_prop h) err
                                        (if truthy old then fields_of old else [])) in
      let newState : gmap string value := {["rejected" := rejected]} in
      let cached := or_undef (CACHE w !! h_key h) in
      let newState :=
        if truthy cached then <[h_prop h := cached]> newState else newState in
      Ok (bump_fresh w, Some newState).

(** [newState => { if (this.tracking[prop]!==id) return;
      delete this.tracking[prop]; let pending = this.state.pending;
      if (pending && pending[prop])
        newState.pending = removeKeyFromObject(prop, pending);
      this.setState(newState); }]
    The argument is [None] when the rejection reaction returned nothing. *)
Definition on_settled (h : handler) (newState : option (gmap string value))
    (wc : world * component) : result (world * component) :=
  let '(w, c) := wc in
  if stale h c then Ok (w, c)
  else
    let c := set_tracking (delete (h_prop h)) c in
    let pending := or_undef (state c !! "pending") in
    if negb (plain_set pending) then Beyond
    else if truthy pending && truthy (get_field pending (h_prop h))
    then match newState with
         | Some ns =>
             Ok (bump_fresh w,
                 setState (<["pending" := removeKeyFromObject (fresh w) (h_prop h) pending]> ns) c)
         | None => Throw TypeError
         end
    else Ok (w, setState (default ∅ newState) c).

(** How the promise of an invocation settles. *)
Inductive outcome : Type :=
| Fulfilled (data : value)
| Rejected (err : value).

(** The whole chain for one settlement when nothing else touches the
    instance between its reactions: the first reaction that applies, then
    the last one on what it returned. (The reactions are separate jobs; what
    holds when other chains run in between is stated on [on_reject] and
    [on_settled] themselves.) *)
Definition settle (h : handler) (o : outcome) (wc : world * component)
  : result (world * component) :=
  match o with
  | Fulfilled data =>
      let '(w, newState) := on_resolve h data (fst wc) in
      on_settled h (Some newState) (w, snd wc)
  | Rejected err =>
      match on_reject h err wc with
      | Ok (w, newState) => on_settled h newState (w, snd wc)
      | Throw x => Throw x
      | Beyond => Beyond
      end
  end.

(** ** Lifecycle *)

(** [this.refresh = () => { this.invoke(this.props, false, true); }] *)
Definition refresh (cfg : config) (env : oracle) (wc : world * component)
  : result (world * component) :=
  invoke cfg env (props (snd wc)) false true wc.

(** [componentWillMount() { this.invoke(this.props); }] *)
Definition componentWillMount (cfg : config) (env : oracle) (wc : world * component)
  : result (world * component) :=
  invoke cfg env (props (snd wc)) false false wc.

(** [if (!shallowEqual(nextProps, this.props)
         && join(this.keys)!==join(this.invoke(nextProps, true)))
       this.invoke(nextProps);] *)
Definition componentWillReceiveProps (cfg : config) (env : oracle)
    (nextProps : gmap string value) (wc : world * component)
  : result (world * component) :=
  if negb (shallowEqual nextProps (props (snd wc)))
  then
    let before := join (keys (snd wc)) in
    match invoke cfg env nextProps true false wc with
    | Throw x => Throw x
    | Beyond => Beyond
    | Ok wc1 =>
        if negb (String.eqb before (join (keys (snd wc1))))
        then invoke cfg env nextProps false false wc1
        else Ok wc1
    end
  else Ok wc.

(** [shouldComponentUpdate(props, state)]:
    [!shallowEqual(props, this.props) || !shallowEqual(state, this.state)] *)
Definition shouldComponentUpdate (this : component)
    (props' state' : gmap string value) : bool :=
  negb (shallowEqual props' (props this)) || negb (shallowEqual state' (state this)).

(** [render(props, state)]: the props handed to [Child],
    [{ refresh: this.refresh, ...this.mapping, ...props, ...state }]. *)
Definition render (this : component) (props' state' : gmap string value)
  : gmap string value :=
  state' ∪ (props' ∪ (mapping this ∪ {["refresh" := VFun (refresh_ref this)]})).

(** A property update as the host performs it: the hook runs against the old
    [this.props], then the new props are installed. *)
Definition receive (cfg : config) (env : oracle) (nextProps : gmap string value)
    (wc : world * component) : result (world * component) :=
  match componentWillReceiveProps cfg env nextProps wc with
  | Ok (w, c) => Ok (w, set_props nextProps c)
  | Throw x => Throw x
  | Beyond => Beyond
  end.

(** ** Vocabulary of the statements *)

(** No property of the object holds NaN. *)
Definition no_NaN (m : gmap string value) : Prop := forall k, m !! k <> Some VNaN.

(** The key that [invoke] computes for one entry of the mapping. *)
Definition key_of (cfg : config) (props : gmap string value) (entry : string * value)
  : string :=
  (descriptor cfg props entry.2).2.

Definition computed_keys (cfg : config) (props : gmap string value) : list string :=
  map (key_of cfg props) (mapping_of cfg props).

(** ** Concrete configurations and runs, used as examples *)

(** The context [{ foo: { bar: <function 7>, m: <function 8> } }]. *)
Definition demo_context : value :=
  VObj 100 [("foo", VObj 101 [("bar", VFun 7); ("m", VFun 8)])].

(** A model whose every call returns a new promise. *)
Definition promise_env : oracle := fun n _ _ => VPromise (200 + n).

(** [wire('foo', { bar: 'bar' })] *)
Definition bar_config : config := Config (VStr "foo") (MapObject [("bar", VStr "bar")]).

(** [<Connected a="b" />] before [componentWillMount]. *)
Definition bar_start : world * component :=
  (new_world 1000, constructor {["a" := VStr "b"]} demo_context ∅ 50).

(** What a lifecycle call leaves behind; an exception leaves the input. *)
Definition after (r : result (world * component)) (wc : world * component)
  : world * component :=
  match r with
  | Ok wc' => wc'
  | Throw _ | Beyond => wc
  end.

Definition bar_mounted : world * component :=
  after (componentWillMount bar_config promise_env bar_start) bar_start.

(** A model whose [bar] returns NaN at once, and the same component mounted
    over it. *)
Definition nan_env : oracle := fun _ _ _ => VNaN.

Definition nan_mounted : world * component :=
  after (componentWillMount bar_config nan_env bar_start) bar_start.

(** [wire('foo', props => props.swap ? { b: 'm' } : { a: 'm' })] *)
Definition swap_config : config :=
  Config (VStr "foo")
    (MapFunction (fun props =>
       if truthy (or_undef (props !! "swap"))
       then [("b", VStr "m")] else [("a", VStr "m")])).

Definition swap_start : world * component :=
  (new_world 1000, constructor ∅ demo_context ∅ 50).

Definition swap_mounted : world * component :=
  after (componentWillMount swap_config promise_env swap_start) swap_start.

Definition swap_next : gmap string value := {["swap" := VBool true]}.

(** Closed goals about these configurations are settled by evaluation. *)
Ltac conjuncts := repeat match goal with |- _ /\ _ => split end.
Ltac evaluate := vm_compute; reflexivity.

(** The number of calls to user functions a lifecycle call ends with. *)
Definition calls_after (r : result (world * component)) : option nat :=
  match r with
  | Ok (w, _) => Some (length (calls w))
  | Throw _ | Beyond => None
  end.

(** The first and the second reaction chain an instance has attached. *)
Definition first_reaction (wc : world * component) : handler :=
  hd (Handler "" "" 0 0) (reactions wc.2).

Definition second_reaction (wc : world * component) : handler :=
  hd (Handler "" "" 0 0) (tl (reactions wc.2)).

(** Mount, then [refresh()] while the first promise is still pending. *)
Definition bar_refreshed : world * component :=
  after (refresh bar_config promise_env bar_mounted) bar_mounted.

(** Mount, then the promise is fulfilled with ['BAR']. *)
Definition bar_settled : world * component :=
  after (settle (first_reaction bar_mounted) (Fulfilled (VStr "BAR")) bar_mounted)
        bar_mounted.

(** [wire('foo', props => ({ item: ['getItem', props.id] }))] *)
Definition item_config : config :=
  Config (VStr "foo")
    (MapFunction (fun props =>
       [("item", VArr 0 [VStr "getItem"; or_undef (props !! "id")])])).

Definition item_context : value :=
  VObj 100 [("foo", VObj 101 [("getItem", VFun 9)])].

(** [getItem(1)] returns a promise; [getItem(2)] returns the item at once. *)
Definition item_env : oracle :=
  fun _ _ args =>
    match args with
    | [VNum 1] => VPromise 300
    | _ => VStr "two"
    end.

Definition item_start : world * component :=
  (new_world 1000, constructor {["id" := VNum 1]} item_context ∅ 50).

Definition item_mounted : world * component :=
  after (componentWillMount item_config item_env item_start) item_start.

(** The [id] prop changes from 1 to 2. *)
Definition item_updated : world * component :=
  after (receive item_config item_env {["id" := VNum 2]} item_mounted) item_mounted.

(** Mount, [refresh()], then the first promise is fulfilled with [v]. *)
Definition bar_first_fulfilled (v : value) : world * component :=
  after (settle (first_reaction bar_refreshed) (Fulfilled v) bar_refreshed)
        bar_refreshed.

(** ... and then the second promise is rejected with ['ERR']. *)
Definition bar_second_rejected (v : value) : world * component :=
  after (settle (second_reaction bar_refreshed) (Rejected (VStr "ERR"))
           (bar_first_fulfilled v))
        (bar_first_fulfilled v).

Definition bar_key : string := cache_key (VStr "foo") (VStr "bar") [].

(** ** Calls and paths *)

(** The call a descriptor denotes: a callable path is called without
    arguments, a method path with the bound arguments, a literal not at all. *)
Definition call_of (source path : value) (args : list value) : option (nat * list value) :=
  match path with
  | VFun f => Some (f, [])
  | VStr s =>
      match delve source s with
      | Some (VFun f) => Some (f, args)
      | _ => None
      end
  | _ => None
  end.

(** A value with a [then] is a promise: so it is with what the functions of
    a model return when they return promises or plain data. *)
Definition awaited (p : value) : Prop :=
  thenable p = true -> exists r, p = VPromise r.

(** No promise has been fulfilled with a value that has a [then]. *)
Definition settled_plainly (w : world) : Prop :=
  forall r v, resolved w !! r = Some v -> thenable v = false.

(** A path the iteration resolves: a function of the user, a string that
    leads to a function of the model, or a literal that is a promise or has
    no [then]. *)
Definition resolvable (source path : value) : Prop :=
  match path with
  | VStr s => exists f, delve source s = Some (VFun f)
  | VFun _ => True
  | VNative n => native_callable n = false
  | _ => awaited path
  end.

(** A string path at the end of which [dlv] finds [v], which is no function. *)
Definition leads_to (source path : value) (s : string) (v : value) : Prop :=
  path = VStr s /\ delve source s = Some v /\ typeof v <> "function".

Definition unresolvable (source path : value) : Prop :=
  exists s v, leads_to source path s v.


(** The call that [invoke] makes for one entry of the mapping, if any. *)
Definition issued (cfg : config) (props : gmap string value) (source : value)
    (entry : string * value) : option (nat * list value) :=
  call_of source (descriptor cfg props entry.2).1.1 (descriptor cfg props entry.2).1.2.

Definition path_of (cfg : config) (props : gmap string value) (entry : string * value)
  : value :=
  (descriptor cfg props entry.2).1.1.

Definition args_of (cfg : config) (props : gmap string value) (entry : string * value)
  : list value :=
  (descriptor cfg props entry.2).1.2.

(** Property names that are [ordinary] and are not the two keys of the state
    the adapter keeps for itself. *)
Definition usable (prop : string) : bool :=
  ordinary prop && negb (String.eqb prop "pending") && negb (String.eqb prop "rejected").

(** An entry of the mapping whose iteration stays within the embedding and
    finds what it is to call. *)
Definition entry_ok (cfg : config) (props : gmap string value) (source : value)
    (entry : string * value) : Prop :=
  usable entry.1 = true
  /\ forallb json_plain
       (contextNamespace cfg :: path_of cfg props entry :: args_of cfg props entry) = true
  /\ resolvable source (path_of cfg props entry).

(** The value an entry delivers under [refresh] when [n] calls to user code
    have been made before: what its call returns, or the literal, after the
    look at [__wiretieResolved]. *)
Definition answer (cfg : config) (env : oracle) (props : gmap string value)
    (source : value) (w : world) (n : nat) (entry : string * value) : value :=
  memoized w
    match issued cfg props source entry with
    | Some (f, args) => env n f args
    | None => path_of cfg props entry
    end.


(** The reaction chain that belongs to a delivered value: one if it is a
    promise, under the key of the entry and with the next identifier. *)
Definition chain (cfg : config) (props : gmap string value) (id : nat)
    (entry : string * value) (v : value) : list handler :=
  match v with
  | VPromise r => [Handler entry.1 (key_of cfg props entry) (S id) r]
  | _ => []
  end.


(** [wire('foo', { bar: 'nope' })]: the model has no [nope]. *)
Definition nope_config : config := Config (VStr "foo") (MapObject [("bar", VStr "nope")]).


Definition item_model : value := VObj 101 [("getItem", VFun 9)].

(** [wire('foo', { bar: 'bar', baz: 'nope' })]: the second entry names a
    method the model does not have. *)
Definition late_config : config :=
  Config (VStr "foo") (MapObject [("bar", VStr "bar"); ("baz", VStr "nope")]).


(** A model object with an array of functions and a number in it. *)
Definition list_model : value :=
  VObj 101 [("bar", VFun 7); ("list", VArr 102 [VFun 8]); ("n", VNum 0)].

(** The mounted [bar] component after the host has passed it other props. *)
Definition bar_moved : component := set_props {["a" := VStr "c"]} bar_mounted.2.

(** ** Shorthand argument binding *)

(** Shorthand binding of one argument: a string naming a prop is replaced by
    the value of that prop; a string naming no prop but a member that the
    props object inherits is replaced by that member ([in] follows the
    prototype chain); anything else is kept. *)
Definition bound (props : gmap string value) (raw arg : value) : Prop :=
  (forall s v, raw = VStr s -> props !! s = Some v -> arg = v)
  /\ (forall s v, raw = VStr s -> props !! s = None -> inherited s = Some v -> arg = v)
  /\ ((forall s, raw = VStr s -> props !! s = None /\ inherited s = None) -> arg = raw).

(** [wire('foo', { item: ['getItem', 'id', 'zzz'] })] with props [{ id: 7 }]. *)
Definition shorthand_descriptor : value :=
  VArr 0 [VStr "getItem"; VStr "id"; VStr "zzz"].

Definition shorthand_config : config :=
  Config (VStr "foo") (MapObject [("item", shorthand_descriptor)]).

Definition shorthand_start : world * component :=
  (new_world 1000, constructor {["id" := VNum 7]} item_context ∅ 50).

(** [['getItem', 'toString', 'id']]: [toString] names no prop, but a member
    that the props object inherits. *)
Definition inherited_descriptor : value :=
  VArr 0 [VStr "getItem"; VStr "toString"; VStr "id"].

(** ** Runs of one instance *)

(** What the host and the promises can do to a mounted instance. *)
Inductive step (cfg : config) (env : oracle)
  : world * component -> world * component -> Prop :=
| step_receive nextProps wc wc' :
    receive cfg env nextProps wc = Ok wc' -> step cfg env wc wc'
| step_refresh wc wc' :
    refresh cfg env wc = Ok wc' -> step cfg env wc wc'
| step_settle h o wc wc' :
    h ∈ reactions wc.2 -> settle h o wc = Ok wc' -> step cfg env wc wc'
| step_cache (f : gmap string value -> gmap string value) w c :
    step cfg env (w, c) (set_CACHE f w, c).

(** The states of an instance from its construction on; the cache it starts
    with, and every later change made to it by other instances of the same
    configuration, are arbitrary. *)
Inductive reachable (cfg : config) (env : oracle) : world * component -> Prop :=
| reach_mount w props0 ctx model_props rid wc :
    componentWillMount cfg env (w, constructor props0 ctx model_props rid) = Ok wc ->
    reachable cfg env wc
| reach_step wc wc' :
    reachable cfg env wc -> step cfg env wc wc' -> reachable cfg env wc'.

(** The elementary changes of an instance: the assignments that the
    lifecycle calls and the reactions are made of. A commit is the last
    reaction of a chain of the instance, on whatever the reaction before it
    returned, whenever that was. *)
Inductive change : component -> component -> Prop :=
| change_key prop key c :
    change c (set_currentKey prop key c)      (* [this.currentKeys[prop] = key] *)
| change_keys ks c :
    change c (set_keys ks c)                  (* [this.keys = keys] *)
| change_props p c :
    change c (set_props p c)                  (* the host installs new props *)
| change_issue prop key p w c :
    change c (start_async prop key p (w, c)).2  (* lines 111 to 161 *)
| change_sync prop v c :
    change c (setState {[prop := v]} c)       (* [this.setState({ [prop]: p })] *)
| change_commit h ns w w' c c' :
    h ∈ reactions c ->
    on_settled h ns (w, c) = Ok (w', c') ->
    change c c'.


(** Identifiers come from the counter, and the tracked identifier of a
    property is the largest one handed out for it. *)
Definition ids_bounded (c : component) : Prop :=
  forall h, h ∈ reactions c -> h_id h <= counter c.

Definition tracking_latest (c : component) : Prop :=
  forall h i, h ∈ reactions c -> tracking c !! h_prop h = Some i -> h_id h <= i.

Definition consistent (c : component) : Prop := ids_bounded c /\ tracking_latest c.

(** ** Reading a key back *)

Definition all_ascii : list ascii := map ascii_of_nat (seq 0 256).

(** No escape sequence is empty or starts with a quote. *)
Definition escape_head_ok (c : ascii) : bool :=
  match escape_char c with
  | EmptyString => false
  | String a _ => negb (Ascii.eqb a dquote)
  end.

(** The escape sequences form a prefix code. *)
Definition escape_prefix_ok (c : ascii) : bool :=
  forallb (fun c' =>
             Ascii.eqb c c' || negb (String.prefix (escape_char c) (escape_char c')))
          all_ascii.

Fixpoint all_chars (P : ascii -> bool) (s : string) : bool :=
  match s with
  | EmptyString => true
  | String c s' => P c && all_chars P s'
  end.

(** The characters of a decimal numeral. *)
Definition is_num_char (c : ascii) : bool :=
  Ascii.eqb c "-" || ((48 <=? N_of_ascii c)%N && (N_of_ascii c <=? 57)%N).

(** What can follow a value inside an array or an object. *)
Definition closes (r : string) : bool :=
  match r with
  | EmptyString => true
  | String c _ => Ascii.eqb c "," || Ascii.eqb c "]" || Ascii.eqb c "}"
  end.

(** Induction on values, through the lists they nest. *)
Section value_induction.
Variable P : value -> Prop.
Hypothesis HUndef : P VUndef.
Hypothesis HNull : P VNull.
Hypothesis HBool : forall b, P (VBool b).
Hypothesis HNum : forall n, P (VNum n).
Hypothesis HStr : forall s, P (VStr s).
Hypothesis HArr : forall r xs, Forall P xs -> P (VArr r xs).
Hypothesis HObj : forall r fs, Forall (fun kv => P kv.2) fs -> P (VObj r fs).
Hypothesis HFun : forall r, P (VFun r).
Hypothesis HPromise : forall r, P (VPromise r).
Hypothesis HNaN : P VNaN.
Hypothesis HNative : forall n, P (VNative n).

Fixpoint value_ind (v : value) : P v :=
  match v with
  | VUndef => HUndef
  | VNull => HNull
  | VBool b => HBool b
  | VNum n => HNum n
  | VStr s => HStr s
  | VArr r xs =>
      HArr r xs
        ((fix all (l : list value) : Forall P l :=
            match l with
            | [] => @List.Forall_nil _ P
            | x :: l' => @List.Forall_cons _ P x l' (value_ind x) (all l')
            end) xs)
  | VObj r fs =>
      HObj r fs
        ((fix all (l : list (string * value)) : Forall (fun kv => P kv.2) l :=
            match l with
            | [] => @List.Forall_nil _ (fun kv => P kv.2)
            | (k, x) :: l' =>
                @List.Forall_cons _ (fun kv => P kv.2) (k, x) l' (value_ind x) (all l')
            end) fs)
  | VFun r => HFun r
  | VPromise r => HPromise r
  | VNaN => HNaN
  | VNative n => HNative n
  end.
End value_induction.

(** Values that JSON renders without loss: strings, booleans, [null],
    integers that a JS number holds exactly, and arrays and objects of such
    values. *)
Fixpoint faithful (v : value) : bool :=
  match v with
  | VNull | VBool _ | VStr _ => true
  | VNum n => (Z.abs n <=? 9007199254740991)%Z
  | VArr _ xs => forallb faithful xs
  | VObj _ fs =>
      (fix all (l : list (string * value)) : bool :=
         match l with
         | [] => true
         | (_, x) :: l' => faithful x && all l'
         end) fs
  | VUndef | VFun _ | VPromise _ | VNaN | VNative _ => false
  end.

(** The value without the identities of its objects. *)
Fixpoint strip (v : value) : value :=
  match v with
  | VArr _ xs => VArr 0 (map strip xs)
  | VObj _ fs =>
      VObj 0 ((fix all (l : list (string * value)) : list (string * value) :=
                 match l with
                 | [] => []
                 | (k, x) :: l' => (k, strip x) :: all l'
                 end) fs)
  | VFun _ => VFun 0
  | VPromise _ => VPromise 0
  | _ => v
  end.

(** One member of an object: the quoted name, a colon, the value. *)
Definition member (kv : string * value) : string :=
  quote kv.1 +:+ ":" +:+ stringify kv.2.

Definition faithful_fields (fs : list (string * value)) : bool :=
  forallb (fun kv => faithful kv.2) fs.

Definition strip_fields (fs : list (string * value)) : list (string * value) :=
  map (fun kv => (kv.1, strip kv.2)) fs.

(** The kind of a faithful value, which its first character reveals. *)
Definition kind (v : value) : nat :=
  match v with
  | VNull => 0
  | VBool true => 1
  | VBool false => 2
  | VNum _ => 3
  | VStr _ => 4
  | VArr _ _ => 5
  | VObj _ _ => 6
  | _ => 7
  end.

(** First characters: [n], [t], [f], a numeral character, a quote, a
    bracket or a brace, and never a character that closes a value. *)
Definition opens (v : value) (c : ascii) : Prop :=
  match kind v with
  | 0 => c = "n"%char
  | 1 => c = "t"%char
  | 2 => c = "f"%char
  | 3 => is_num_char c = true
  | 4 => c = dquote
  | 5 => c = "["%char
  | 6 => c = "{"%char
  | _ => True
  end.

(** The statement proved by induction on the value: a faithful value can
    be told from any other faithful value by its serialisation, even when
    more text follows, provided that text starts with a closing character. *)
Definition readable (v : value) : Prop :=
  faithful v = true ->
  forall w r1 r2,
    faithful w = true -> closes r1 = true -> closes r2 = true ->
    stringify v +:+ r1 = stringify w +:+ r2 ->
    strip v = strip w /\ r1 = r2.

(** * Properties *)

(** ** Strict and shallow equality *)

(** Every value but NaN is [===] to itself. *)
Lemma strict_eq_refl (v : value) : strict_eq v v = true <-> v <> VNaN.
Proof.
  split.
  - by intros H ->.
  - intros Hv.
    destruct v; simpl; auto using Z.eqb_refl, String.eqb_refl, Nat.eqb_refl.
    by destruct b.
Qed.

Lemma forallb_map_to_list (P : string * value -> bool) (m : gmap string value) :
  (forall k v, m !! k = Some v -> P (k, v) = true) ->
  forallb P (map_to_list m) = true.
Proof.
  intros H. apply forallb_forall. intros [k v] Hin.
  apply H. apply elem_of_map_to_list. by apply list_elem_of_In.
Qed.

(** An object is shallowly equal to itself unless one of its values is NaN. *)
Lemma shallowEqual_refl (a : gmap string value) :
  shallowEqual a a = true <-> no_NaN a.
Proof.
  unfold shallowEqual, no_NaN. split.
  - intros H k Hk. apply andb_prop in H as [H _].
    rewrite forallb_forall in H.
    specialize (H (k, VNaN)). cbn in H. discriminate H.
    apply list_elem_of_In, elem_of_map_to_list, Hk.
  - intros Hno. apply andb_true_intro. split.
    + apply forallb_map_to_list. intros k v Hk. simpl.
      unfold property. rewrite Hk. apply strict_eq_refl. intros ->. by apply (Hno k).
    + apply forallb_map_to_list. intros k v Hk. simpl.
      unfold has_property. rewrite bool_decide_eq_true_2 by eauto. done.
Qed.

Lemma invoke_loop_keysOnly cfg env props refresh source w c ks entries :
  invoke_loop cfg env props true refresh source (w, c, ks) entries
  = Ok (w, c, ks ++ map (key_of cfg props) entries).
Proof.
  revert ks. induction entries as [|[prop d] rest IH]; intros ks; simpl.
  - by rewrite app_nil_r.
  - unfold key_of at 1. simpl.
    destruct (descriptor cfg props d) as [[path args] key] eqn:Hd. simpl.
    rewrite IH. by rewrite <- app_assoc.
Qed.

(** With [keysOnly] set, [invoke] reassigns [this.keys] and does nothing else. *)
Lemma invoke_keysOnly cfg env props refresh w c :
  invoke cfg env props true refresh (w, c)
  = Ok (w, set_keys (computed_keys cfg props) c).
Proof. unfold invoke. by rewrite invoke_loop_keysOnly. Qed.

(** ** C6: an update that changes nothing is inert *)

(** C6, refuted as stated. The model method [bar] returns NaN at once, so
    the mounted component holds [bar = NaN] in its state. An update with the
    same props is shallowly equal, the key computed for [bar] is the recorded
    one, and the hook does nothing; yet [shouldComponentUpdate] answers true,
    because the state is compared value by value with [!==] and NaN is not
    equal to itself: the child is rendered again. *)
Lemma C6_a_NaN_in_the_state_renders_again :
  componentWillMount bar_config nan_env bar_start = Ok nan_mounted
  /\ state nan_mounted.2 !! "bar" = Some VNaN
  /\ shallowEqual {["a" := VStr "b"]} (props nan_mounted.2) = true
  /\ currentKeys nan_mounted.2 !! "bar"
     = Some (key_of bar_config {["a" := VStr "b"]} ("bar", VStr "bar"))
  /\ keys nan_mounted.2 = Some (computed_keys bar_config {["a" := VStr "b"]})
  /\ componentWillReceiveProps bar_config nan_env {["a" := VStr "b"]} nan_mounted
     = Ok nan_mounted
  /\ shouldComponentUpdate nan_mounted.2 {["a" := VStr "b"]} (state nan_mounted.2)
     = true.
Proof. conjuncts; evaluate. Qed.

(** C6, as the code has it. When the incoming props are shallowly equal to
    the current ones, [componentWillReceiveProps] calls no user function and
    leaves the keys, the tracking table, the counter, the attached reactions
    and the state as they were; the condition on the keys is not even
    needed, the hook stops at the shallow comparison. [shouldComponentUpdate]
    then answers false exactly when no property of the state is NaN. *)
Theorem C6_unchanged_update_is_inert cfg env nextProps w c :
  shallowEqual nextProps (props c) = true ->
  exists w' c',
    componentWillReceiveProps cfg env nextProps (w, c) = Ok (w', c')
    /\ calls w' = calls w
    /\ currentKeys c' = currentKeys c
    /\ tracking c' = tracking c
    /\ counter c' = counter c
    /\ reactions c' = reactions c
    /\ state c' = state c
    /\ (shouldComponentUpdate c nextProps (state c') = false <-> no_NaN (state c)).
Proof.
  intros Heq. exists w, c. unfold componentWillReceiveProps. cbn [snd].
  rewrite Heq. cbn [negb]. conjuncts; try reflexivity.
  unfold shouldComponentUpdate. rewrite Heq. cbn [negb orb].
  rewrite negb_false_iff. apply shallowEqual_refl.
Qed.

Lemma C6_unchanged_update_is_inert_witness :
  exists w' c',
    componentWillReceiveProps bar_config promise_env {["a" := VStr "b"]}
      (bar_mounted.1, bar_mounted.2) = Ok (w', c')
    /\ calls w' = calls bar_mounted.1
    /\ currentKeys c' = currentKeys bar_mounted.2
    /\ tracking c' = tracking bar_mounted.2
    /\ counter c' = counter bar_mounted.2
    /\ reactions c' = reactions bar_mounted.2
    /\ state c' = state bar_mounted.2
    /\ (shouldComponentUpdate bar_mounted.2 {["a" := VStr "b"]} (state c') = false
        <-> no_NaN (state bar_mounted.2)).
Proof.
  apply (C6_unchanged_update_is_inert bar_config promise_env
           {["a" := VStr "b"]} bar_mounted.1 bar_mounted.2).
  vm_compute. reflexivity.
Defined.

(** ** C4: when the full reconcile runs *)

(** C4, refuted as stated. The mapping names its single entry [a] or [b]
    after the [swap] prop, with the same descriptor. After mounting without
    [swap], the update to [swap = true] is shallowly different and the entry
    [b] has no recorded key, yet the hook does not run the full reconcile:
    running it would call the model a second time, the hook makes no call. *)
Lemma C4_shallow_difference_alone_does_not_reconcile :
  shallowEqual swap_next (props swap_mounted.2) = false
  /\ currentKeys swap_mounted.2 !! "b" = None
  /\ calls_after (componentWillReceiveProps swap_config promise_env swap_next swap_mounted)
     = Some 1
  /\ calls_after (invoke swap_config promise_env swap_next false false swap_mounted)
     = Some 2
  /\ componentWillReceiveProps swap_config promise_env swap_next swap_mounted
     <> invoke swap_config promise_env swap_next false false swap_mounted.
Proof.
  assert (H1 : calls_after (componentWillReceiveProps swap_config promise_env
                              swap_next swap_mounted) = Some 1)
    by (vm_compute; reflexivity).
  assert (H2 : calls_after (invoke swap_config promise_env swap_next false false
                              swap_mounted) = Some 2)
    by (vm_compute; reflexivity).
  split; [vm_compute; reflexivity|].
  split; [vm_compute; reflexivity|].
  split; [exact H1|]. split; [exact H2|].
  intros Heq. rewrite Heq in H1. rewrite H1 in H2. clear Heq H1. discriminate H2.
Qed.

(** C4, as the code has it. The hook runs the full reconcile exactly when the
    props are shallowly different and the joined keys differ from the ones of
    the previous cycle. When the props differ but the keys join to the same
    string, only the keys-only pass has run, which reassigns [this.keys] and
    nothing else; when the props are shallowly equal nothing runs. *)
Theorem C4_reconcile_needs_both_differences cfg env nextProps w c :
  componentWillReceiveProps cfg env nextProps (w, c)
  = if negb (shallowEqual nextProps (props c))
    then if negb (String.eqb (join (keys c)) (join (Some (computed_keys cfg nextProps))))
         then invoke cfg env nextProps false false
                (w, set_keys (computed_keys cfg nextProps) c)
         else Ok (w, set_keys (computed_keys cfg nextProps) c)
    else Ok (w, c).
Proof.
  unfold componentWillReceiveProps. cbn [snd].
  destruct (shallowEqual nextProps (props c)); cbn [negb]; [reflexivity|].
  rewrite invoke_keysOnly. reflexivity.
Qed.

(** ** Stale settlements *)

Lemma on_reject_stale h err w c :
  stale h c = true -> on_reject h err (w, c) = Ok (w, None).
Proof. intros Hs. unfold on_reject. by rewrite Hs. Qed.

Lemma on_settled_stale h newState w c :
  stale h c = true -> on_settled h newState (w, c) = Ok (w, c).
Proof. intros Hs. unfold on_settled. by rewrite Hs. Qed.

(** A stale settlement leaves the component as it was, whatever the outcome. *)
Lemma settle_stale h o w c :
  stale h c = true -> exists w', settle h o (w, c) = Ok (w', c).
Proof.
  intros Hs. destruct o as [data|err]; unfold settle; cbn [fst snd].
  - unfold on_resolve. rewrite on_settled_stale by done. eauto.
  - rewrite on_reject_stale by done. rewrite on_settled_stale by done. eauto.
Qed.

(** Issuing an asynchronous invocation for a property outdates every reaction
    whose identifier was drawn from the counter before. *)
Lemma start_async_outdates h key p w c :
  h_id h <= counter c ->
  stale h (start_async (h_prop h) key p (w, c)).2 = true.
Proof.
  intros Hle. unfold start_async.
  repeat match goal with
         | |- context [let '(_, _) := ?x in _] => destruct x
         | |- context [if ?b then _ else _] => destruct b
         end;
    unfold stale; cbn; rewrite lookup_insert_eq;
    apply negb_true_iff, bool_decide_eq_false; intros [= Hid]; lia.
Qed.

(** ** C10: a stale success is still written to the cache *)

(** C10. When the captured identifier is no longer the tracked one, a
    fulfilment changes nothing in the component, so the props rendered for
    the child are the same, but the cache entry of the invocation's key and
    the [__wiretieResolved] field of its promise both hold the stale result:
    the success reaction writes them before the identifier is looked at. The
    same holds when other code runs between the two reactions, as long as the
    invocation is stale when the last reaction runs. *)
Theorem C10_stale_success_is_still_cached h data w c :
  stale h c = true ->
  (exists w' c',
     settle h (Fulfilled data) (w, c) = Ok (w', c')
     /\ c' = c
     /\ render c' (props c') (state c') = render c (props c) (state c)
     /\ CACHE w' !! h_key h = Some data
     /\ resolved w' !! h_promise h = Some data)
  /\ (forall w1 newState, on_resolve h data w = (w1, newState) ->
      CACHE w1 !! h_key h = Some data
      /\ resolved w1 !! h_promise h = Some data
      /\ forall w2 c2, stale h c2 = true ->
         on_settled h (Some newState) (w2, c2) = Ok (w2, c2)).
Proof.
  intros Hs. split.
  - eexists _, c. unfold settle, on_resolve. cbn [fst snd].
    rewrite on_settled_stale by done.
    repeat split. all: cbn; by rewrite lookup_insert_eq.
  - intros w1 newState Heq. injection Heq as <- <-.
    split; [cbn; by rewrite lookup_insert_eq|].
    split; [cbn; by rewrite lookup_insert_eq|].
    intros w2 c2 Hs2. by apply on_settled_stale.
Qed.

Lemma C10_stale_success_is_still_cached_witness :
  (exists w' c',
     settle (first_reaction bar_refreshed) (Fulfilled (VStr "old"))
       (bar_refreshed.1, bar_refreshed.2) = Ok (w', c')
     /\ c' = bar_refreshed.2
     /\ render c' (props c') (state c')
        = render bar_refreshed.2 (props bar_refreshed.2) (state bar_refreshed.2)
     /\ CACHE w' !! h_key (first_reaction bar_refreshed) = Some (VStr "old")
     /\ resolved w' !! h_promise (first_reaction bar_refreshed) = Some (VStr "old"))
  /\ (forall w1 newState,
      on_resolve (first_reaction bar_refreshed) (VStr "old") bar_refreshed.1
      = (w1, newState) ->
      CACHE w1 !! h_key (first_reaction bar_refreshed) = Some (VStr "old")
      /\ resolved w1 !! h_promise (first_reaction bar_refreshed) = Some (VStr "old")
      /\ forall w2 c2, stale (first_reaction bar_refreshed) c2 = true ->
         on_settled (first_reaction bar_refreshed) (Some newState) (w2, c2) = Ok (w2, c2)).
Proof.
  apply (C10_stale_success_is_still_cached (first_reaction bar_refreshed)
           (VStr "old") bar_refreshed.1 bar_refreshed.2).
  vm_compute. reflexivity.
Defined.

(** ** Property lists *)

Lemma assoc_get_set_eq k v fs : assoc_get k (assoc_set k v fs) = Some v.
Proof.
  induction fs as [|[k' v'] fs IH]; simpl.
  - by rewrite String.eqb_refl.
  - destruct (String.eqb k k') eqn:E; simpl; rewrite ?String.eqb_refl, ?E; auto.
Qed.

Lemma assoc_get_set_ne k k' v fs :
  k <> k' -> assoc_get k (assoc_set k' v fs) = assoc_get k fs.
Proof.
  intros Hne. induction fs as [|[k2 v2] fs IH]; simpl.
  - by apply String.eqb_neq in Hne as ->.
  - destruct (String.eqb k' k2) eqn:E; simpl.
    + apply String.eqb_eq in E as <-. by apply String.eqb_neq in Hne as ->.
    + by rewrite IH.
Qed.

Lemma assoc_get_del_eq k fs : assoc_get k (assoc_del k fs) = None.
Proof.
  induction fs as [|[k' v'] fs IH]; simpl; [done|].
  destruct (String.eqb k k') eqn:E; simpl; rewrite ?E; auto.
Qed.

Lemma assoc_get_del_ne k k' fs :
  k <> k' -> assoc_get k (assoc_del k' fs) = assoc_get k fs.
Proof.
  intros Hne. induction fs as [|[k2 v2] fs IH]; simpl; [done|].
  destruct (String.eqb k' k2) eqn:E; simpl.
  - apply String.eqb_eq in E as <-. by apply String.eqb_neq in Hne as ->.
  - by rewrite IH.
Qed.

(** The clone made by [removeKeyFromObject] is an object, never [undefined],
    also when the key removed was the last one. *)
Lemma removeKeyFromObject_last_key fresh key r v :
  removeKeyFromObject fresh key (VObj r [(key, v)]) = VObj fresh [].
Proof.
  unfold removeKeyFromObject, hasOwnProperty. simpl. rewrite String.eqb_refl.
  rewrite bool_decide_eq_true_2 by eauto. reflexivity.
Qed.

Lemma get_field_obj r fs k :
  get_field (VObj r fs) k
  = match assoc_get k fs with
    | Some x => x
    | None => or_undef (inherited k)
    end.
Proof. reflexivity. Qed.

Lemma get_field_set r fs k v : get_field (VObj r (assoc_set k v fs)) k = v.
Proof. by rewrite get_field_obj, assoc_get_set_eq. Qed.

Lemma removeKeyFromObject_get fresh key r fs :
  get_field (removeKeyFromObject fresh key (VObj r fs)) key = or_undef (inherited key).
Proof.
  unfold removeKeyFromObject, hasOwnProperty. cbn [fields_of].
  case_bool_decide as H.
  - by rewrite get_field_obj, assoc_get_del_eq.
  - rewrite get_field_obj. destruct (assoc_get key fs) eqn:E; [|done].
    exfalso. apply H. eauto.
Qed.

(** A set that is truthy is a plain object. *)
Lemma plain_set_truthy v :
  plain_set v = true -> truthy v = true -> exists r fs, v = VObj r fs.
Proof.
  unfold plain_set. intros H Ht. rewrite Ht in H. cbn in H.
  destruct v; try done. eauto.
Qed.

Lemma falsy_has_no_fields v k : truthy v = false -> get_field v k = VUndef.
Proof. by destruct v. Qed.

(** ** Settlement of the current invocation *)

(** The rejection of the current invocation is committed as data: the chain
    ends normally and [rejected[prop]] is the error. *)
Lemma settle_rejected_current h err w c :
  stale h c = false ->
  h_prop h <> "rejected" ->
  plain_set (or_undef (state c !! "pending")) = true ->
  plain_set (or_undef (state c !! "rejected")) = true ->
  exists w' c',
    settle h (Rejected err) (w, c) = Ok (w', c')
    /\ get_field (or_undef (state c' !! "rejected")) (h_prop h) = err
    /\ tracking c' !! h_prop h = None.
Proof.
  intros Hs Hne Hpp Hpr. unfold settle, on_reject. rewrite Hs, Hpr. cbn [fst snd negb].
  unfold on_settled. rewrite Hs. cbn [state set_tracking]. rewrite Hpp. cbn [negb].
  set (obj := VObj _ _).
  assert (Hobj : get_field obj (h_prop h) = err).
  { subst obj. apply get_field_set. }
  assert (Hrej : forall ns : gmap string value,
             ns !! "rejected" = Some obj ->
             get_field (or_undef ((ns ∪ state c) !! "rejected")) (h_prop h) = err).
  { intros ns Hns. by rewrite (lookup_union_Some_l _ _ _ _ Hns). }
  assert (Hbase : forall cached : value,
             (if truthy cached
              then <[h_prop h := cached]> ({["rejected" := obj]} : gmap string value)
              else {["rejected" := obj]}) !! "rejected" = Some obj).
  { intros cached. destruct (truthy cached).
    - rewrite lookup_insert_ne by done. apply lookup_singleton_eq.
    - apply lookup_singleton_eq. }
  destruct (truthy _ && truthy _).
  - eexists _, _. split; [reflexivity|]. split.
    + cbn. apply Hrej. rewrite lookup_insert_ne by done. apply Hbase.
    + cbn. apply lookup_delete_eq.
  - eexists _, _. split; [reflexivity|]. split.
    + cbn. apply Hrej. apply Hbase.
    + cbn. apply lookup_delete_eq.
Qed.

(** With a truthy value in the cache under the invocation's key, the same
    commit shows that value for the property. *)
Lemma settle_rejected_fallback h err w c V :
  stale h c = false ->
  h_prop h <> "pending" ->
  plain_set (or_undef (state c !! "pending")) = true ->
  plain_set (or_undef (state c !! "rejected")) = true ->
  CACHE w !! h_key h = Some V ->
  truthy V = true ->
  exists w' c',
    settle h (Rejected err) (w, c) = Ok (w', c')
    /\ state c' !! h_prop h = Some V.
Proof.
  intros Hs Hne Hpp Hpr HV HT. unfold settle, on_reject. rewrite Hs, Hpr.
  cbn [fst snd negb].
  unfold on_settled. rewrite Hs. cbn [state set_tracking]. rewrite Hpp. cbn [negb].
  rewrite HV. change (or_undef (Some V)) with V. rewrite HT.
  destruct (truthy _ && truthy _).
  - eexists _, _. split; [reflexivity|]. cbn.
    apply lookup_union_Some_l. rewrite lookup_insert_ne by done.
    apply lookup_insert_eq.
  - eexists _, _. split; [reflexivity|]. cbn.
    apply lookup_union_Some_l. apply lookup_insert_eq.
Qed.

(** Committing the current settlement takes the property out of [pending]
    (a name that every object inherits, such as [toString], always reads as
    truthy). *)
Lemma settle_current_clears_pending h o w c :
  stale h c = false ->
  h_prop h <> "pending" ->
  inherited (h_prop h) = None ->
  plain_set (or_undef (state c !! "pending")) = true ->
  plain_set (or_undef (state c !! "rejected")) = true ->
  exists w' c',
    settle h o (w, c) = Ok (w', c')
    /\ truthy (get_field (or_undef (state c' !! "pending")) (h_prop h)) = false.
Proof.
  intros Hs Hne Hown Hpp Hpr.
  assert (Hgen : forall w1 (ns : gmap string value),
             ns !! "pending" = None ->
             exists w' c',
               on_settled h (Some ns) (w1, c) = Ok (w', c')
               /\ truthy (get_field (or_undef (state c' !! "pending")) (h_prop h)) = false).
  { intros w1 ns Hns. unfold on_settled. rewrite Hs. cbn [state set_tracking].
    rewrite Hpp. cbn [negb].
    destruct (truthy (or_undef (state c !! "pending"))) eqn:Et; cbn [andb].
    - destruct (plain_set_truthy _ Hpp Et) as (r & fs & Hv). rewrite Hv.
      destruct (truthy (get_field (VObj r fs) (h_prop h))) eqn:E.
      + eexists _, _. split; [reflexivity|]. cbn -[removeKeyFromObject get_field].
        rewrite (lookup_union_Some_l _ _ _ _ (lookup_insert_eq _ _ _)).
        cbn -[removeKeyFromObject get_field].
        by rewrite removeKeyFromObject_get, Hown.
      + eexists _, _. split; [reflexivity|]. cbn -[get_field].
        rewrite lookup_union_r by done. by rewrite Hv.
    - eexists _, _. split; [reflexivity|]. cbn -[get_field].
      rewrite lookup_union_r by done. by rewrite (falsy_has_no_fields _ _ Et). }
  destruct o as [data|err]; unfold settle; cbn [fst snd].
  - unfold on_resolve. apply Hgen. by rewrite lookup_singleton_ne.
  - unfold on_reject. rewrite Hs, Hpr. cbn [negb]. apply Hgen.
    destruct (truthy _).
    + rewrite lookup_insert_ne by done. by rewrite lookup_singleton_ne.
    + by rewrite lookup_singleton_ne.
Qed.

(** Issuing an asynchronous invocation puts the property in [pending]. *)
Lemma start_async_marks_pending prop key p w c :
  prop <> "pending" ->
  truthy (get_field (or_undef (state (start_async prop key p (w, c)).2 !! "pending")) prop)
  = true.
Proof.
  intros Hne. unfold start_async.
  set (pending := or_undef (state c !! "pending")).
  assert (Hcache : forall (w1 : world) (ns : gmap string value) v,
             ns !! "pending" = Some v ->
             match CACHE w1 !! key with
             | Some x => if String.eqb (typeof x) "undefined" then ns else <[prop := x]> ns
             | None => ns
             end !! "pending" = Some v).
  { intros w1 ns v Hns. destruct (CACHE w1 !! key) as [x|]; [|done].
    destruct (String.eqb _ _); [done|]. by rewrite lookup_insert_ne. }
  assert (Hcache' : forall (w1 : world) (ns : gmap string value),
             ns !! "pending" = None ->
             match CACHE w1 !! key with
             | Some x => if String.eqb (typeof x) "undefined" then ns else <[prop := x]> ns
             | None => ns
             end !! "pending" = None).
  { intros w1 ns Hns. destruct (CACHE w1 !! key) as [x|]; [|done].
    destruct (String.eqb _ _); [done|]. by rewrite lookup_insert_ne. }
  assert (Hone : get_field (VObj (fresh w) [(prop, VBool true)]) prop = VBool true).
  { apply (get_field_set (fresh w) [] prop). }
  destruct (truthy pending) eqn:Hp; cbn [negb].
  - destruct (truthy (get_field pending prop)) eqn:Hpp; cbn [negb].
    + destruct (truthy _ && truthy _); cbn -[get_field].
      * rewrite lookup_union_r; [exact Hpp|].
        apply Hcache'. by rewrite lookup_insert_ne.
      * rewrite lookup_union_r; [exact Hpp|]. by apply Hcache'.
    + destruct (truthy _ && truthy _); cbn -[get_field].
      * erewrite lookup_union_Some_l;
          [|apply Hcache; rewrite lookup_insert_ne by done; apply lookup_insert_eq].
        cbn -[get_field]. by rewrite get_field_set.
      * erewrite lookup_union_Some_l; [|apply Hcache; apply lookup_insert_eq].
        cbn -[get_field]. by rewrite get_field_set.
  - destruct (truthy _ && truthy _); cbn -[get_field].
    + erewrite lookup_union_Some_l;
        [|apply Hcache; rewrite lookup_insert_ne by done; apply lookup_insert_eq].
      cbn -[get_field]. by rewrite Hone.
    + erewrite lookup_union_Some_l; [|apply Hcache; apply lookup_insert_eq].
      cbn -[get_field]. by rewrite Hone.
Qed.

(** A value that is already cached under the key when the invocation is
    issued is shown at once, whether it is truthy or not. *)
Lemma start_async_shows_cached prop key p w c V :
  CACHE w !! key = Some V ->
  V <> VUndef ->
  state (start_async prop key p (w, c)).2 !! prop = Some V.
Proof.
  intros HV Hdef. unfold start_async.
  assert (Ht : String.eqb (typeof V) "undefined" = false).
  { destruct V; try done. cbn. by destruct (native_callable name). }
  destruct (negb (truthy (or_undef (state c !! "pending"))));
    [|destruct (negb (truthy (get_field (or_undef (state c !! "pending")) prop)))];
    destruct (truthy (or_undef (state c !! "rejected"))
              && truthy (get_field (or_undef (state c !! "rejected")) prop));
    cbn -[get_field]; rewrite HV, Ht; apply lookup_union_Some_l, lookup_insert_eq.
Qed.

(** Without a truthy cached value the commit of a rejection stages no value
    for the property: what the state showed for it stays. *)
Lemma settle_rejected_without_fallback h err w c :
  stale h c = false ->
  h_prop h <> "pending" -> h_prop h <> "rejected" ->
  plain_set (or_undef (state c !! "pending")) = true ->
  plain_set (or_undef (state c !! "rejected")) = true ->
  truthy (or_undef (CACHE w !! h_key h)) = false ->
  exists w' c',
    settle h (Rejected err) (w, c) = Ok (w', c')
    /\ state c' !! h_prop h = state c !! h_prop h.
Proof.
  intros Hs Hp Hr Hpp Hpr Hf. unfold settle, on_reject. rewrite Hs, Hpr, Hf.
  cbn [fst snd negb].
  unfold on_settled. rewrite Hs. cbn [state set_tracking]. rewrite Hpp. cbn [negb].
  destruct (truthy _ && truthy _).
  - eexists _, _. split; [reflexivity|]. cbn.
    rewrite lookup_union_r; [done|].
    rewrite lookup_insert_ne by done. by rewrite lookup_singleton_ne.
  - eexists _, _. split; [reflexivity|]. cbn.
    rewrite lookup_union_r; [done|]. by rewrite lookup_singleton_ne.
Qed.

(** ** C1: [pending] after the last settlement *)

(** C1, evaluated on [wire('foo', { bar: 'bar' })] with a model whose [bar]
    returns a promise fulfilled with ['BAR']. While the call is in flight the
    child receives [pending = { bar: true }]. Once it has settled, [bar] is
    out of [pending], but the [pending] prop the child receives is an empty
    object, not [undefined]: [removeKeyFromObject] returns the emptied clone. *)
Theorem C1_pending_is_an_empty_object_after_the_last_settlement :
  render bar_mounted.2 (props bar_mounted.2) (state bar_mounted.2) !! "pending"
  = Some (VObj 1000 [("bar", VBool true)])
  /\ settle (first_reaction bar_mounted) (Fulfilled (VStr "BAR")) bar_mounted
     = Ok bar_settled
  /\ render bar_settled.2 (props bar_settled.2) (state bar_settled.2) !! "bar"
     = Some (VStr "BAR")
  /\ render bar_settled.2 (props bar_settled.2) (state bar_settled.2) !! "pending"
     = Some (VObj 1001 [])
  /\ render bar_settled.2 (props bar_settled.2) (state bar_settled.2) !! "pending"
     <> None.
Proof.
  assert (H : render bar_settled.2 (props bar_settled.2) (state bar_settled.2)
              !! "pending" = Some (VObj 1001 []))
    by (vm_compute; reflexivity).
  conjuncts; try evaluate.
  rewrite H. clear H. discriminate.
Qed.

(** ** C2: an older settlement after a newer synchronous value *)

(** C2, evaluated where the newer invocation is synchronous. The invocation
    for [id = 1] is in flight when [id] becomes 2 and [getItem(2)] returns
    ['two'] directly: the state shows ['two'], but [tracking.item] still holds
    the identifier of the first invocation. When that one settles afterwards
    it is not taken for stale: a fulfilment with ['one'] replaces the newer
    value, a rejection adds [rejected.item]. *)
Theorem C2_older_settlement_overrides_a_newer_synchronous_value :
  state item_updated.2 !! "item" = Some (VStr "two")
  /\ currentKeys item_updated.2 !! "item"
     = Some (cache_key (VStr "foo") (VStr "getItem") [VNum 2])
  /\ h_key (first_reaction item_mounted)
     = cache_key (VStr "foo") (VStr "getItem") [VNum 1]
  /\ stale (first_reaction item_mounted) item_updated.2 = false
  /\ (exists w c,
        settle (first_reaction item_mounted) (Fulfilled (VStr "one")) item_updated
        = Ok (w, c)
        /\ state c !! "item" = Some (VStr "one"))
  /\ (exists w c,
        settle (first_reaction item_mounted) (Rejected (VStr "boom")) item_updated
        = Ok (w, c)
        /\ state c !! "rejected" = Some (VObj 1001 [("item", VStr "boom")])
        /\ state item_updated.2 !! "rejected" = None).
Proof.
  conjuncts; try evaluate.
  - eexists _, _. conjuncts; evaluate.
  - eexists _, _. conjuncts; evaluate.
Qed.

(** ** C3: the fallback value at a rejection *)

(** C3, evaluated on a cached zero. Two invocations for [bar] share one key;
    the first is fulfilled with 0, which the cache records, and the second,
    the current one, is rejected. The commit sets [rejected.bar] but [bar]
    stays undefined, although the cache holds 0 under the key: the rejection
    reaction tests the cached value for truth. With 5 in place of 0 the same
    run shows [bar = 5]. *)
Theorem C3_cached_zero_is_not_used_as_fallback :
  CACHE (bar_first_fulfilled (VNum 0)).1 !! bar_key = Some (VNum 0)
  /\ h_key (second_reaction bar_refreshed) = bar_key
  /\ stale (second_reaction bar_refreshed) (bar_first_fulfilled (VNum 0)).2 = false
  /\ settle (second_reaction bar_refreshed) (Rejected (VStr "ERR"))
       (bar_first_fulfilled (VNum 0)) = Ok (bar_second_rejected (VNum 0))
  /\ get_field (or_undef (state (bar_second_rejected (VNum 0)).2 !! "rejected")) "bar"
     = VStr "ERR"
  /\ state (bar_second_rejected (VNum 0)).2 !! "bar" = None
  /\ CACHE (bar_second_rejected (VNum 0)).1 !! bar_key = Some (VNum 0)
  /\ state (bar_second_rejected (VNum 5)).2 !! "bar" = Some (VNum 5).
Proof. conjuncts; evaluate. Qed.

(** ** What one attempted iteration does *)

Lemma start_async_frame prop key p w c :
  calls (start_async prop key p (w, c)).1 = calls w
  /\ CACHE (start_async prop key p (w, c)).1 = CACHE w
  /\ resolved (start_async prop key p (w, c)).1 = resolved w
  /\ currentKeys (start_async prop key p (w, c)).2 = currentKeys c
  /\ counter (start_async prop key p (w, c)).2 = S (counter c)
  /\ tracking (start_async prop key p (w, c)).2 = <[prop := S (counter c)]> (tracking c)
  /\ reactions (start_async prop key p (w, c)).2
     = reactions c ++ [Handler prop key (S (counter c)) (promise_ref p)].
Proof.
  unfold start_async.
  destruct (negb (truthy (or_undef (state c !! "pending"))));
    [|destruct (negb (truthy (get_field (or_undef (state c !! "pending")) prop)))];
    destruct (truthy (or_undef (state c !! "rejected"))
              && truthy (get_field (or_undef (state c !! "rejected")) prop));
    cbn -[get_field]; done.
Qed.

(** The look at [__wiretieResolved] depends on the world through the
    fulfilment values only. *)
Lemma memoized_frame w w' p : resolved w' = resolved w -> memoized w' p = memoized w p.
Proof.
  intros H. unfold memoized, wiretieResolved. destruct p; try done. by rewrite H.
Qed.

(** After the look at [__wiretieResolved] a value with a [then] is still a
    promise. *)
Lemma awaited_memoized w p : settled_plainly w -> awaited p -> awaited (memoized w p).
Proof.
  intros Hw Hp. unfold memoized.
  destruct (thenable p && truthy (wiretieResolved w p)) eqn:E; [|done].
  apply andb_prop in E as [Ht Hv].
  destruct (Hp Ht) as [r ->]. cbn in *.
  destruct (resolved w !! r) as [v|] eqn:Hr; [|done]. cbn in *.
  intros Hthen. by rewrite (Hw r v Hr) in Hthen.
Qed.

Lemma plain_set_spec v :
  plain_set v = true
  <-> truthy v = false
      \/ exists r fs, v = VObj r fs /\ assoc_get "hasOwnProperty" fs = None.
Proof.
  unfold plain_set, hasOwnProperty. split.
  - destruct (truthy v) eqn:Et; [|by left]. cbn [negb orb].
    destruct v; try done. cbn [fields_of]. intros H. right. eexists _, _. split; [done|].
    apply negb_true_iff, bool_decide_eq_false in H.
    destruct (assoc_get _ fs); [|done]. exfalso. apply H. eauto.
  - intros [->|(r & fs & -> & H)]; [done|]. cbn. rewrite H.
    rewrite bool_decide_eq_false_2; [done|]. by intros [? ?].
Qed.

Lemma usable_spec prop :
  usable prop = true
  <-> prop <> "__proto__" /\ prop <> "hasOwnProperty"
      /\ prop <> "pending" /\ prop <> "rejected".
Proof.
  unfold usable, ordinary. rewrite !andb_true_iff, !negb_true_iff, !String.eqb_neq.
  tauto.
Qed.

Lemma assoc_get_del_none k k' fs : assoc_get k fs = None -> assoc_get k (assoc_del k' fs) = None.
Proof.
  induction fs as [|[k2 v2] fs IH]; simpl; [done|].
  destruct (String.eqb k k2) eqn:E; [done|]. intros H.
  destruct (String.eqb k' k2); simpl; rewrite ?E; auto.
Qed.

Lemma removeKeyFromObject_plain n key v :
  plain_set v = true -> plain_set (removeKeyFromObject n key v) = true.
Proof.
  intros H. unfold removeKeyFromObject. destruct (hasOwnProperty v key) eqn:E; [|done].
  apply plain_set_spec. right. eexists _, _. split; [done|].
  apply plain_set_spec in H as [Ht|(r & fs & -> & Hf)].
  - destruct v; try done. 
  - cbn. by apply assoc_get_del_none.
Qed.

Lemma cache_match_lookup (C : gmap string value) key prop (ns : gmap string value) k :
  k <> prop ->
  match C !! key with
  | Some x => if String.eqb (typeof x) "undefined" then ns else <[prop := x]> ns
  | None => ns
  end !! k = ns !! k.
Proof.
  intros Hne. destruct (C !! key) as [x|]; [|done].
  destruct (String.eqb _ _); [done|]. by rewrite lookup_insert_ne.
Qed.

Ltac issue_cases c prop :=
  unfold start_async;
  destruct (truthy (or_undef (state c !! "pending"))) eqn:Hp; cbn [negb];
  [destruct (truthy (get_field (or_undef (state c !! "pending")) prop)) eqn:Hpp;
   cbn [negb]|];
  (destruct (truthy (or_undef (state c !! "rejected"))
             && truthy (get_field (or_undef (state c !! "rejected")) prop)) eqn:Hr);
  cbn -[removeKeyFromObject get_field];
  rewrite lookup_union, cache_match_lookup by done.

(** What [state.pending] is after an invocation has been issued. *)
Lemma start_async_pending prop key p w c :
  prop <> "pending" ->
  or_undef (state (start_async prop key p (w, c)).2 !! "pending")
  = if negb (truthy (or_undef (state c !! "pending")))
    then VObj (fresh w) [(prop, VBool true)]
    else if negb (truthy (get_field (or_undef (state c !! "pending")) prop))
    then VObj (fresh w) (assoc_set prop (VBool true)
                           (fields_of (or_undef (state c !! "pending"))))
    else or_undef (state c !! "pending").
Proof.
  intros Hne. issue_cases c prop; simplify_map_eq; try done.
  all: by destruct (state c !! "pending").
Qed.

(** What [state.rejected] is after an invocation has been issued. *)
Lemma start_async_rejected prop key p w c :
  prop <> "rejected" ->
  exists n,
    or_undef (state (start_async prop key p (w, c)).2 !! "rejected")
    = if truthy (or_undef (state c !! "rejected"))
         && truthy (get_field (or_undef (state c !! "rejected")) prop)
      then removeKeyFromObject n prop (or_undef (state c !! "rejected"))
      else or_undef (state c !! "rejected").
Proof.
  intros Hne. issue_cases c prop; simplify_map_eq.
  all: first [ eexists; by destruct (state c !! "rejected")
             | exists 0; by destruct (state c !! "rejected") ].
Qed.

(** The other keys of the state are not touched. *)
Lemma start_async_other prop key p w c k :
  k <> prop -> k <> "pending" -> k <> "rejected" ->
  state (start_async prop key p (w, c)).2 !! k = state c !! k.
Proof.
  intros H1 H2 H3. issue_cases c prop; simplify_map_eq; try done.
  all: by destruct (state c !! k).
Qed.

(** Issuing an invocation for a [usable] property keeps the two sets plain. *)
Lemma start_async_plain prop key p w c :
  usable prop = true ->
  plain_set (or_undef (state c !! "pending")) = true ->
  plain_set (or_undef (state c !! "rejected")) = true ->
  plain_set (or_undef (state (start_async prop key p (w, c)).2 !! "pending")) = true
  /\ plain_set (or_undef (state (start_async prop key p (w, c)).2 !! "rejected")) = true.
Proof.
  intros (Hproto & Hown & Hp & Hr)%usable_spec Hpp Hpr. split.
  - rewrite start_async_pending by done.
    destruct (truthy (or_undef (state c !! "pending"))) eqn:Et; cbn [negb].
    + destruct (negb (truthy (get_field _ prop))); [|done].
      apply plain_set_spec in Hpp as [Hf|(r & fs & -> & Hfs)]; [congruence|].
      apply plain_set_spec. right. eexists _, _. split; [done|].
      cbn [fields_of]. by rewrite assoc_get_set_ne.
    + apply plain_set_spec. right. eexists _, _. split; [done|].
      cbn [assoc_get]. destruct (String.eqb_spec "hasOwnProperty" prop); [congruence|done].
  - destruct (start_async_rejected prop key p w c Hr) as [n ->].
    destruct (truthy _ && truthy _); [|done]. by apply removeKeyFromObject_plain.
Qed.

Lemma resolve_path_frame env ns source path args w p w' :
  resolve_path env ns source path args w = Ok (p, w') ->
  CACHE w' = CACHE w /\ resolved w' = resolved w /\ fresh w' = fresh w.
Proof.
  destruct path as [| |b|n|s|r xs|r fs|f|r| |name]; cbn;
    try (by intros [= _ <-]).
  - destruct (delve source s) as [fn|]; [|done].
    destruct (truthy fn); cbn [negb]; [|done].
    destruct fn; try done; [by intros [= _ <-]|by destruct (native_callable _)].
  - destruct (native_callable name); [done|by intros [= _ <-]].
Qed.

(** A resolvable path yields the value of the call it denotes, or itself. *)
Lemma resolve_path_resolvable env ns source path args w :
  resolvable source path ->
  resolve_path env ns source path args w
  = Ok match call_of source path args with
       | Some (f, a) => call env f a w
       | None => (path, w)
       end.
Proof.
  intros Hres.
  destruct path as [| |b|n|s|r xs|r fs|f|r| |name]; cbn in *; try done.
  - destruct Hres as [f ->]. done.
  - by rewrite Hres.
Qed.


Lemma not_thenable_no_chain cfg props id e v : thenable v = false -> chain cfg props id e v = [].
Proof. by destruct v. Qed.

(** One attempted iteration (under [refresh], or with a key that is not the
    recorded one): the recorded key is overwritten, the call the descriptor
    denotes is made once, and when what it delivers is a promise one
    reaction chain is attached, for this property under this key. *)
Lemma invoke_entry_attempted cfg env props forced source w c ks e :
  entry_ok cfg props source e ->
  forced = true \/ currentKeys c !! e.1 <> Some (key_of cfg props e) ->
  (forall n f args, awaited (env n f args)) ->
  settled_plainly w ->
  plain_set (or_undef (state c !! "pending")) = true ->
  plain_set (or_undef (state c !! "rejected")) = true ->
  exists w' c',
    invoke_entry cfg env props false forced source (w, c, ks) e
    = Ok (w', c', ks ++ [key_of cfg props e])
    /\ calls w' = calls w ++ option_list (issued cfg props source e)
    /\ resolved w' = resolved w /\ CACHE w' = CACHE w
    /\ currentKeys c' !! e.1 = Some (key_of cfg props e)
    /\ reactions c'
       = reactions c
         ++ chain cfg props (counter c) e
              (answer cfg env props source w (length (calls w)) e)
    /\ counter c'
       = counter c
         + length (chain cfg props (counter c) e
                     (answer cfg env props source w (length (calls w)) e))
    /\ plain_set (or_undef (state c' !! "pending")) = true
    /\ plain_set (or_undef (state c' !! "rejected")) = true.
Proof.
  intros (Hname & Hjson & Hres) Hatt Henv Hw Hpp Hpr.
  assert (Haw : awaited (answer cfg env props source w (length (calls w)) e)).
  { unfold answer. apply awaited_memoized; [done|].
    unfold issued, path_of in *.
    destruct (descriptor cfg props e.2) as [[path args] key]. cbn [fst snd] in *.
    destruct (call_of source path args) as [[f a]|] eqn:Ec; [apply Henv|].
    destruct path; try done; cbn in *.
    destruct Hres as [f Hf]. by rewrite Hf in Ec. }
  revert Haw. unfold answer, invoke_entry, issued, path_of, args_of, key_of in *.
  destruct e as [prop d]. cbn [fst snd] in *.
  destruct (descriptor cfg props d) as [[path args] key] eqn:Hd. cbn [fst snd] in *.
  rewrite Hjson. cbn [negb].
  assert (negb forced && bool_decide (currentKeys c !! prop = Some key) = false) as ->.
  { destruct Hatt as [->|Hk]; [done|].
    rewrite bool_decide_eq_false_2 by done. apply andb_false_r. }
  rewrite (resolve_path_resolvable env _ source path args w Hres).
  set (p := match call_of source path args with
            | Some (f, a) => env (length (calls w)) f a
            | None => path
            end).
  assert (Hcall : match call_of source path args with
                  | Some (f, a) => call env f a w
                  | None => (path, w)
                  end
                  = (p, match call_of source path args with
                        | Some (f, a) => log_call f a w
                        | None => w
                        end)).
  { subst p. by destruct (call_of source path args) as [[f a]|]. }
  rewrite Hcall. clear Hcall.
  set (w1 := match call_of source path args with
             | Some (f, a) => log_call f a w
             | None => w
             end).
  assert (Hw1 : calls w1 = calls w ++ option_list (call_of source path args)
                /\ resolved w1 = resolved w /\ CACHE w1 = CACHE w).
  { subst w1. destruct (call_of source path args) as [[f a]|]; cbn;
      by rewrite ?app_nil_r. }
  destruct Hw1 as (Hc1 & Hr1 & HC1).
  rewrite (memoized_frame w w1 p Hr1).
  intros Haw.
  apply usable_spec in Hname as Hname'. destruct Hname' as (_ & _ & Hnp & Hnr).
  destruct (thenable (memoized w p)) eqn:Eth.
  - destruct (Haw Eth) as [r Hp]. rewrite Hp.
    cbn [state set_currentKey]. rewrite Hpp, Hpr. cbn [andb].
    pose proof (start_async_frame prop key (VPromise r) w1 (set_currentKey prop key c))
      as (Hc & HC & Hr & Hk & Hn & _ & Hre).
    pose proof (start_async_plain prop key (VPromise r) w1 (set_currentKey prop key c)
                  Hname Hpp Hpr) as [Hpp' Hpr'].
    destruct (start_async prop key (VPromise r) (w1, set_currentKey prop key c))
      as [w2 c2]. cbn [fst snd] in *.
    eexists _, _. split; [reflexivity|].
    rewrite Hc, Hr, HC, Hk, Hre, Hn. unfold chain, key_of. cbn [length fst snd].
    rewrite Hd.
    conjuncts; try done; [cbn; apply lookup_insert_eq|cbn; lia].
  - rewrite not_thenable_no_chain by done.
    eexists _, _. split; [reflexivity|]. cbn -[plain_set].
    rewrite app_nil_r, Nat.add_0_r.
    conjuncts; try done; [apply lookup_insert_eq| |].
    + rewrite lookup_union_r; [done|]. by apply lookup_singleton_ne.
    + rewrite lookup_union_r; [done|]. by apply lookup_singleton_ne.
Qed.





(** ** C7: [refresh()] *)



(** On the same mounted component the recorded key equals the computed one:
    an unforced [invoke] makes no call, [refresh()] makes one and attaches a
    second chain under the same key, which becomes the tracked one. *)
Example refresh_ignores_the_recorded_key :
  currentKeys bar_mounted.2 !! "bar"
  = Some (key_of bar_config (props bar_mounted.2) ("bar", VStr "bar"))
  /\ calls_after (invoke bar_config promise_env (props bar_mounted.2) false false
                    bar_mounted) = Some 1
  /\ calls_after (refresh bar_config promise_env bar_mounted) = Some 2
  /\ reactions bar_refreshed.2
     = [Handler "bar" bar_key 1 200; Handler "bar" bar_key 2 201]
  /\ tracking bar_refreshed.2 !! "bar" = Some 2.
Proof. conjuncts; evaluate. Qed.

(** ** Runs as sequences of elementary changes *)

Lemma invoke_entry_changes cfg env props keysOnly forced source w c ks e w' c' ks' :
  invoke_entry cfg env props keysOnly forced source (w, c, ks) e = Ok (w', c', ks') ->
  rtc change c c'.
Proof.
  unfold invoke_entry. destruct e as [prop d].
  destruct (descriptor cfg props d) as [[path args] key].
  destruct keysOnly; [by intros [= _ <- _]|].
  destruct (negb (forallb json_plain _)); [done|].
  destruct (negb forced && _); [by intros [= _ <- _]|].
  destruct (resolve_path _ _ _ _ _ _) as [[p w1]|x|]; [|done|done].
  destruct (thenable _).
  - destruct (plain_set _ && plain_set _); [|done].
    destruct (memoized w1 p) eqn:Ep; try (unfold call_then; by destruct (String.eqb _ _)).
    pose proof (change_issue prop key (VPromise r) w1 (set_currentKey prop key c)) as Hs.
    destruct (start_async _ _ _ _) as [w2 c2]. intros [= _ <- _].
    eapply rtc_l; [apply change_key|]. by apply rtc_once.
  - intros [= _ <- _].
    eapply rtc_l; [apply change_key|]. apply rtc_once, change_sync.
Qed.

Lemma invoke_loop_changes cfg env props keysOnly forced source entries :
  forall w c ks w' c' ks',
    invoke_loop cfg env props keysOnly forced source (w, c, ks) entries
    = Ok (w', c', ks') ->
    rtc change c c'.
Proof.
  induction entries as [|e rest IH]; intros w c ks w' c' ks'; cbn [invoke_loop].
  - by intros [= _ <- _].
  - destruct (invoke_entry _ _ _ _ _ _ _ _) as [[[w1 c1] ks1]|x|] eqn:Hrun; [|done|done].
    intros Hrest. etrans.
    + exact (invoke_entry_changes _ _ _ _ _ _ _ _ _ _ _ _ _ Hrun).
    + exact (IH _ _ _ _ _ _ Hrest).
Qed.

Lemma invoke_changes cfg env props keysOnly forced w c w' c' :
  invoke cfg env props keysOnly forced (w, c) = Ok (w', c') ->
  rtc change c c'.
Proof.
  unfold invoke. destruct (negb keysOnly && _); [done|].
  destruct (invoke_loop _ _ _ _ _ _ _ _) as [[[w1 c1] ks1]|x|] eqn:Hl; [|done|done].
  intros [= _ <-]. etrans.
  - exact (invoke_loop_changes _ _ _ _ _ _ _ _ _ _ _ _ _ Hl).
  - apply rtc_once, change_keys.
Qed.

Lemma settle_changes h o w c w' c' :
  h ∈ reactions c -> settle h o (w, c) = Ok (w', c') -> rtc change c c'.
Proof.
  intros Hin. unfold settle. destruct o as [data|err]; cbn [fst snd].
  - unfold on_resolve. intros H. by eapply rtc_once, change_commit.
  - destruct (on_reject h err (w, c)) as [[w1 ns]|x|]; [|done|done].
    intros H. by eapply rtc_once, change_commit.
Qed.

Lemma step_changes cfg env w c w' c' :
  step cfg env (w, c) (w', c') -> rtc change c c'.
Proof.
  intros Hstep.
  inversion Hstep as [np ? ? Hr|? ? Hr|h o ? ? Hin Hs|]; subst.
  - unfold receive in Hr.
    destruct (componentWillReceiveProps cfg env np (w, c)) as [[w1 c1]|x|] eqn:Hc;
      [|done|done].
    injection Hr as <- <-.
    etrans; [|apply rtc_once, change_props].
    unfold componentWillReceiveProps in Hc. cbn [snd] in Hc.
    destruct (negb (shallowEqual np (props c))).
    + destruct (invoke cfg env np true false (w, c)) as [[w2 c2]|x|] eqn:Hk; [|done|done].
      apply invoke_changes in Hk.
      destruct (negb (String.eqb _ _)).
      * apply invoke_changes in Hc. by etrans.
      * by injection Hc as <- <-.
    + by injection Hc as <- <-.
  - unfold refresh in Hr. by apply invoke_changes in Hr.
  - cbn [snd] in Hin. by eapply settle_changes.
  - done.
Qed.

Lemma run_changes cfg env wc wc' :
  rtc (step cfg env) wc wc' -> rtc change wc.2 wc'.2.
Proof.
  induction 1 as [|[w c] [w' c'] wc'' Hstep _ IH]; [done|].
  etrans; [|exact IH]. by apply (step_changes cfg env w c w' c').
Qed.

Lemma reachable_changes cfg env wc :
  reachable cfg env wc ->
  exists props0 ctx model_props rid,
    rtc change (constructor props0 ctx model_props rid) wc.2.
Proof.
  induction 1 as [w props0 ctx mp rid [w' c'] Hm|[w c] [w' c'] _ IH Hstep].
  - exists props0, ctx, mp, rid. unfold componentWillMount in Hm. cbn [snd] in *.
    by apply invoke_changes in Hm.
  - destruct IH as (props0 & ctx & mp & rid & IH). exists props0, ctx, mp, rid.
    cbn [snd] in *. etrans; [exact IH|].
    by apply (step_changes cfg env w c w' c').
Qed.

(** ** Identifiers and staleness *)

(** What the last reaction of a chain leaves alone. *)
Lemma on_settled_frame h ns w c w' c' :
  on_settled h ns (w, c) = Ok (w', c') ->
  reactions c' = reactions c /\ counter c' = counter c
  /\ currentKeys c' = currentKeys c /\ props c' = props c /\ keys c' = keys c
  /\ (c' = c
      \/ stale h c = false /\ tracking c' = delete (h_prop h) (tracking c)).
Proof.
  unfold on_settled. destruct (stale h c).
  - intros [= _ <-]. conjuncts; try done. by left.
  - destruct (negb (plain_set _)); [done|].
    destruct (truthy _ && truthy _).
    + destruct ns; [|done]. intros [= _ <-]. conjuncts; try done. by right.
    + intros [= _ <-]. conjuncts; try done. by right.
Qed.

Lemma consistent_constructor props0 ctx model_props rid :
  consistent (constructor props0 ctx model_props rid).
Proof.
  split; [intros h Hin|intros h i Hin _]; cbn in Hin; by apply elem_of_nil in Hin.
Qed.

(** The invariant only looks at three fields. *)
Lemma consistent_ext c c' :
  reactions c' = reactions c -> counter c' = counter c -> tracking c' = tracking c ->
  consistent c -> consistent c'.
Proof.
  intros Hr Hc Ht [Hb Hl]. split.
  - intros h. rewrite Hr, Hc. apply Hb.
  - intros h i. rewrite Hr, Ht. apply Hl.
Qed.

Lemma consistent_start_async prop key p w c :
  consistent c -> consistent (start_async prop key p (w, c)).2.
Proof.
  intros [Hb Hl].
  destruct (start_async_frame prop key p w c) as (_ & _ & _ & _ & Hc & Ht & Hr).
  split.
  - intros h. rewrite Hr, Hc. intros [Hin|Hin]%elem_of_app.
    + specialize (Hb h Hin). lia.
    + apply list_elem_of_singleton in Hin as ->. cbn. lia.
  - intros h i. rewrite Hr, Ht. intros [Hin|Hin]%elem_of_app.
    + destruct (decide (prop = h_prop h)) as [->|Hne].
      * rewrite lookup_insert_eq. intros [= <-]. specialize (Hb h Hin). lia.
      * rewrite lookup_insert_ne by done. by apply Hl.
    + apply list_elem_of_singleton in Hin as ->. cbn.
      rewrite lookup_insert_eq. intros [= <-]. lia.
Qed.

Lemma consistent_on_settled h newState w c w' c' :
  on_settled h newState (w, c) = Ok (w', c') -> consistent c -> consistent c'.
Proof.
  intros H [Hb Hl].
  destruct (on_settled_frame _ _ _ _ _ _ H) as (Hr & Hc & _ & _ & _ & [->|[_ Ht]]); [done|].
  split.
  - intros h'. rewrite Hr, Hc. apply Hb.
  - intros h' i. rewrite Hr, Ht. intros Hin [_ Hi]%lookup_delete_Some. by apply Hl.
Qed.

Lemma change_consistent c c' : change c c' -> consistent c -> consistent c'.
Proof.
  destruct 1 as [prop key c|ks c|p c|prop key p w c|prop v c|h ns w w' c c' _ Hs];
    try (by apply consistent_ext).
  - apply consistent_start_async.
  - by apply (consistent_on_settled _ _ _ _ _ _ Hs).
Qed.

Lemma changes_consistent c c' : rtc change c c' -> consistent c -> consistent c'.
Proof. induction 1; eauto using change_consistent. Qed.

Lemma reachable_consistent cfg env wc : reachable cfg env wc -> consistent wc.2.
Proof.
  intros (props0 & ctx & mp & rid & H)%reachable_changes.
  apply (changes_consistent _ _ H), consistent_constructor.
Qed.







(** ** Runs: a superseded invocation never commits *)

(** Of two reactions of one property the older one is stale. *)
Lemma older_reaction_is_stale c h h' :
  consistent c ->
  h ∈ reactions c -> h' ∈ reactions c ->
  h_prop h = h_prop h' -> h_id h < h_id h' ->
  stale h c = true.
Proof.
  intros [_ Hl] Hin Hin' Hp Hlt. unfold stale.
  apply negb_true_iff, bool_decide_eq_false. intros Ht.
  rewrite Hp in Ht. specialize (Hl h' _ Hin' Ht). lia.
Qed.

(** In every run, once a newer asynchronous invocation exists for a property,
    the settlement of an older one changes nothing in the component, whether
    it is a success or a failure. *)
Theorem superseded_settlement_is_inert cfg env w c h h' o :
  reachable cfg env (w, c) ->
  h ∈ reactions c -> h' ∈ reactions c ->
  h_prop h = h_prop h' -> h_id h < h_id h' ->
  exists w', settle h o (w, c) = Ok (w', c).
Proof.
  intros Hreach Hin Hin' Hp Hlt. apply settle_stale.
  apply (older_reaction_is_stale c h h'); try done.
  exact (reachable_consistent _ _ _ Hreach).
Qed.

(** The runs used as examples above are runs of the model. *)
Example bar_runs_are_reachable :
  reachable bar_config promise_env bar_mounted
  /\ reachable bar_config promise_env bar_settled
  /\ reachable bar_config promise_env (bar_second_rejected (VNum 0)).
Proof.
  assert (H1 : reachable bar_config promise_env bar_mounted).
  { apply (reach_mount _ _ (new_world 1000) {["a" := VStr "b"]} demo_context ∅ 50).
    evaluate. }
  assert (H2 : reachable bar_config promise_env bar_refreshed).
  { apply (reach_step _ _ bar_mounted); [exact H1|].
    apply step_refresh. evaluate. }
  assert (H3 : reachable bar_config promise_env (bar_first_fulfilled (VNum 0))).
  { apply (reach_step _ _ bar_refreshed); [exact H2|].
    apply (step_settle _ _ (first_reaction bar_refreshed) (Fulfilled (VNum 0)));
      [vm_compute; left|evaluate]. }
  conjuncts.
  - exact H1.
  - apply (reach_step _ _ bar_mounted); [exact H1|].
    apply (step_settle _ _ (first_reaction bar_mounted) (Fulfilled (VStr "BAR")));
      [vm_compute; left|evaluate].
  - apply (reach_step _ _ (bar_first_fulfilled (VNum 0))); [exact H3|].
    apply (step_settle _ _ (second_reaction bar_refreshed) (Rejected (VStr "ERR")));
      [vm_compute; right; left|evaluate].
Qed.

Example item_run_is_reachable : reachable item_config item_env item_updated.
Proof.
  apply (reach_step _ _ item_mounted).
  - apply (reach_mount _ _ (new_world 1000) {["id" := VNum 1]} item_context ∅ 50).
    evaluate.
  - apply (step_receive _ _ {["id" := VNum 2]}). evaluate.
Qed.

(** After [refresh()] the first reaction of [bar] is older than the second:
    whatever its promise does, the component does not change. *)
Example first_reaction_is_superseded o :
  exists w', settle (first_reaction bar_refreshed) o (bar_refreshed.1, bar_refreshed.2)
             = Ok (w', bar_refreshed.2).
Proof.
  apply (superseded_settlement_is_inert bar_config promise_env
           bar_refreshed.1 bar_refreshed.2
           (first_reaction bar_refreshed) (second_reaction bar_refreshed) o).
  - apply (reach_step _ _ bar_mounted).
    + apply (reach_mount _ _ (new_world 1000) {["a" := VStr "b"]} demo_context ∅ 50).
      evaluate.
    + apply step_refresh. evaluate.
  - vm_compute. left.
  - vm_compute. right. left.
  - evaluate.
  - vm_compute. lia.
Qed.


(** ** C8: configuration errors and rejections *)






(** The exception of the example is the one of line 100; a path that ends
    in an array is called and fails with a type error; a rejection on the
    mounted component is committed as data (the test 'should catch errors
    and put them in the rejected prop'), in one go or after other props have
    come in between its two reactions. *)
Example mount_with_missing_method :
  componentWillMount nope_config promise_env bar_start
  = Throw (NotFound (VStr "foo") "nope")
  /\ componentWillMount late_config promise_env bar_start
     = Throw (NotFound (VStr "foo") "nope")
  /\ resolve_path promise_env (VStr "foo") list_model (VStr "list") [] (new_world 1000)
     = Throw TypeError
  /\ stale (first_reaction bar_mounted) bar_moved = false
  /\ exists w c,
       settle (first_reaction bar_mounted) (Rejected (VStr "BAR")) bar_mounted
       = Ok (w, c)
       /\ state c !! "rejected" = Some (VObj 1001 [("bar", VStr "BAR")]).
Proof.
  conjuncts; try evaluate. eexists _, _. conjuncts; evaluate.
Qed.

(** What [dlv] finds in a model: an element of an array by its index, a
    member that every object inherits; a call of the latter, and a read of a
    method of an array, are outside the embedding. *)
Example paths_through_a_model :
  delve list_model "list.0" = Some (VFun 8)
  /\ resolve_path promise_env (VStr "foo") list_model (VStr "list.0") [VNum 1]
       (new_world 1000)
     = Ok (VPromise 200, log_call 8 [VNum 1] (new_world 1000))
  /\ delve list_model "list.length" = Some (VNum 1)
  /\ delve list_model "n.x" = Some VUndef
  /\ delve list_model "toString" = Some (VNative "Object.prototype.toString")
  /\ resolve_path promise_env (VStr "foo") list_model (VStr "toString") []
       (new_world 1000) = Beyond
  /\ delve list_model "list.map" = None
  /\ resolve_path promise_env (VStr "foo") list_model (VStr "list.map") []
       (new_world 1000) = Beyond.
Proof. conjuncts; evaluate. Qed.

(** A value that has a [then] and is no promise is taken for one: a type
    error when [then] is not a function. *)
Example a_then_that_is_no_function :
  thenable (VObj 5 [("then", VNum 1)]) = true
  /\ componentWillMount bar_config (fun _ _ _ => VObj 5 [("then", VNum 1)]) bar_start
     = Throw TypeError
  /\ componentWillMount bar_config (fun _ _ _ => VObj 5 [("then", VFun 3)]) bar_start
     = Beyond.
Proof. conjuncts; evaluate. Qed.

(** ** C9: shorthand argument binding *)

Lemma bind_arg_bound props raw : bound props raw (bind_arg props raw).
Proof.
  unfold bound, bind_arg, has_property, property. split; [|split].
  - intros s v -> Hs. rewrite Hs. by rewrite bool_decide_eq_true_2 by eauto.
  - intros s v -> Hs Hi. rewrite Hs, Hi.
    rewrite bool_decide_eq_false_2 by (by intros [? ?]).
    by rewrite bool_decide_eq_true_2 by eauto.
  - intros Hnone. destruct raw; try done.
    destruct (Hnone s eq_refl) as [-> ->].
    by rewrite !bool_decide_eq_false_2 by (by intros [? ?]).
Qed.

Lemma bind_args_static props raw : Forall2 (bound props) raw (bind_args false props raw).
Proof.
  cbn. induction raw as [|x raw IH]; constructor; auto using bind_arg_bound.
Qed.

(** C9. For an entry whose path is a string that leads to the function [f]
    of the model, the arguments are bound before the key is computed and
    before the call. With an object as [mapToProps] every argument that is a
    string naming a current prop has been replaced by the value of that
    prop, every string naming only a member that the props object inherits
    by that member, and the others are kept; with a function as [mapToProps]
    the arguments are the raw ones. The key that the iteration pushes, in
    the keys-only pass as in the others, is the serialisation of these
    arguments, and whenever the iteration is attempted (forced, or the key
    differs from the recorded one) [f] is called once, on these arguments. *)
Theorem C9_arguments_are_bound_for_static_mappings_only
    cfg env props source w c ks prop d s f forced :
  (split_descriptor d).1 = VStr s ->
  delve source s = Some (VFun f) ->
  usable prop = true ->
  forallb json_plain
    (contextNamespace cfg :: VStr s :: args_of cfg props (prop, d)) = true ->
  forced = true \/ currentKeys c !! prop <> Some (key_of cfg props (prop, d)) ->
  (forall n g args, awaited (env n g args)) ->
  settled_plainly w ->
  plain_set (or_undef (state c !! "pending")) = true ->
  plain_set (or_undef (state c !! "rejected")) = true ->
  (if isFunction cfg
   then args_of cfg props (prop, d) = (split_descriptor d).2
   else Forall2 (bound props) (split_descriptor d).2 (args_of cfg props (prop, d)))
  /\ key_of cfg props (prop, d)
     = cache_key (contextNamespace cfg) (VStr s) (args_of cfg props (prop, d))
  /\ invoke_entry cfg env props true forced source (w, c, ks) (prop, d)
     = Ok (w, c, ks ++ [cache_key (contextNamespace cfg) (VStr s)
                          (args_of cfg props (prop, d))])
  /\ exists w' c',
       invoke_entry cfg env props false forced source (w, c, ks) (prop, d)
       = Ok (w', c', ks ++ [cache_key (contextNamespace cfg) (VStr s)
                              (args_of cfg props (prop, d))])
       /\ calls w' = calls w ++ [(f, args_of cfg props (prop, d))].
Proof.
  intros Hpath Hfn Hname Hjson Hatt Henv Hw Hpp Hpr.
  assert (Hd : descriptor cfg props d
               = (VStr s, bind_args (isFunction cfg) props (split_descriptor d).2,
                  cache_key (contextNamespace cfg) (VStr s)
                    (bind_args (isFunction cfg) props (split_descriptor d).2))).
  { unfold descriptor. destruct (split_descriptor d) as [path raw].
    cbn in Hpath. by subst path. }
  assert (Hargs : args_of cfg props (prop, d)
                  = bind_args (isFunction cfg) props (split_descriptor d).2).
  { unfold args_of. cbn [snd]. by rewrite Hd. }
  assert (Hkey : key_of cfg props (prop, d)
                 = cache_key (contextNamespace cfg) (VStr s) (args_of cfg props (prop, d))).
  { rewrite Hargs. unfold key_of. cbn [snd]. by rewrite Hd. }
  assert (Hp : path_of cfg props (prop, d) = VStr s).
  { unfold path_of. cbn [snd]. by rewrite Hd. }
  split; [|split; [exact Hkey|split]].
  - rewrite Hargs. destruct (isFunction cfg); [done|apply bind_args_static].
  - rewrite <- Hkey. unfold invoke_entry, key_of. cbn [snd].
    by destruct (descriptor cfg props d) as [[path args] key].
  - assert (Hok : entry_ok cfg props source (prop, d)).
    { split; [done|]. rewrite Hp. split; [done|]. cbn. eauto. }
    destruct (invoke_entry_attempted cfg env props forced source w c ks (prop, d)
                Hok Hatt Henv Hw Hpp Hpr) as (w' & c' & Hrun & Hcalls & _).
    exists w', c'. rewrite <- Hkey. split; [exact Hrun|].
    rewrite Hcalls. unfold issued. cbn [snd]. rewrite Hd. cbn [fst snd call_of].
    rewrite Hfn. cbn. by rewrite Hargs.
Qed.

Lemma C9_arguments_are_bound_for_static_mappings_only_witness :
  (if isFunction shorthand_config
   then args_of shorthand_config {["id" := VNum 7]} ("item", shorthand_descriptor)
        = (split_descriptor shorthand_descriptor).2
   else Forall2 (bound {["id" := VNum 7]}) (split_descriptor shorthand_descriptor).2
          (args_of shorthand_config {["id" := VNum 7]} ("item", shorthand_descriptor)))
  /\ key_of shorthand_config {["id" := VNum 7]} ("item", shorthand_descriptor)
     = cache_key (contextNamespace shorthand_config) (VStr "getItem")
         (args_of shorthand_config {["id" := VNum 7]} ("item", shorthand_descriptor))
  /\ invoke_entry shorthand_config promise_env {["id" := VNum 7]} true false item_model
       (shorthand_start.1, shorthand_start.2, []) ("item", shorthand_descriptor)
     = Ok (shorthand_start.1, shorthand_start.2,
           [] ++ [cache_key (contextNamespace shorthand_config) (VStr "getItem")
                    (args_of shorthand_config {["id" := VNum 7]}
                       ("item", shorthand_descriptor))])
  /\ exists w' c',
       invoke_entry shorthand_config promise_env {["id" := VNum 7]} false false
         item_model (shorthand_start.1, shorthand_start.2, [])
         ("item", shorthand_descriptor)
       = Ok (w', c',
             [] ++ [cache_key (contextNamespace shorthand_config) (VStr "getItem")
                      (args_of shorthand_config {["id" := VNum 7]}
                         ("item", shorthand_descriptor))])
       /\ calls w'
          = calls shorthand_start.1
            ++ [(9, args_of shorthand_config {["id" := VNum 7]}
                      ("item", shorthand_descriptor))].
Proof.
  apply (C9_arguments_are_bound_for_static_mappings_only shorthand_config promise_env
           {["id" := VNum 7]} item_model shorthand_start.1 shorthand_start.2 []
           "item" shorthand_descriptor "getItem" 9 false).
  - reflexivity.
  - evaluate.
  - evaluate.
  - evaluate.
  - right. vm_compute. discriminate.
  - intros n g args _. by exists (200 + n).
  - intros r v Hr. vm_compute in Hr. discriminate Hr.
  - evaluate.
  - evaluate.
Defined.

(** The same descriptor under both kinds of mapping, and a descriptor with
    the name of an inherited member: [toString] is replaced by the method of
    [Object.prototype], which the key renders as [null]. *)
Example shorthand_binding :
  (descriptor shorthand_config {["id" := VNum 7]} shorthand_descriptor).1
  = (VStr "getItem", [VNum 7; VStr "zzz"])
  /\ (descriptor (Config (VStr "foo") (MapFunction (fun _ => [])))
        {["id" := VNum 7]} shorthand_descriptor).1
     = (VStr "getItem", [VStr "id"; VStr "zzz"])
  /\ (descriptor shorthand_config {["id" := VNum 7]} inherited_descriptor).1
     = (VStr "getItem", [VNative "Object.prototype.toString"; VNum 7])
  /\ all_chars (fun c => negb (Ascii.eqb c "t"))
       (descriptor shorthand_config {["id" := VNum 7]} inherited_descriptor).2 = false
  /\ (descriptor shorthand_config {["id" := VNum 7]} inherited_descriptor).2
     = cache_key (VStr "foo") (VStr "getItem") [VNull; VNum 7].
Proof. conjuncts; evaluate. Qed.
(** ** C5: the cache key *)

(** *** Strings *)

#[local] Arguments String.append !s1 s2 : simpl nomatch.

Lemma append_assoc (a b c : string) : (a +:+ b) +:+ c = a +:+ (b +:+ c).
Proof. induction a as [|x a IH]; simpl; [done|by f_equal]. Qed.

Lemma append_inv_head (a x y : string) : a +:+ x = a +:+ y -> x = y.
Proof. induction a as [|c a IH]; simpl; [done|]. intros [= H]. auto. Qed.

(** Two splits of one string: one head is a prefix of the other. *)
Lemma append_eq_prefix (a b x y : string) :
  a +:+ x = b +:+ y -> String.prefix a b = true \/ String.prefix b a = true.
Proof.
  revert b. induction a as [|c a IH]; intros b H.
  - left. by destruct b.
  - destruct b as [|c' b]; [by right|].
    cbn in H. injection H as -> H. cbn.
    destruct (IH b H) as [Hp|Hp]; [left|right];
      destruct (ascii_dec c' c'); congruence.
Qed.

Lemma in_all_ascii (c : ascii) : In c all_ascii.
Proof.
  unfold all_ascii. apply in_map_iff. exists (nat_of_ascii c).
  split; [apply ascii_nat_embedding|].
  apply in_seq. pose proof (nat_ascii_bounded c). lia.
Qed.

Lemma all_ascii_forall (P : ascii -> bool) :
  forallb P all_ascii = true -> forall c, P c = true.
Proof. intros H c. rewrite forallb_forall in H. apply H, in_all_ascii. Qed.

Lemma escape_head_checked : forallb escape_head_ok all_ascii = true.
Proof. vm_compute. reflexivity. Qed.

Lemma escape_prefix_checked : forallb escape_prefix_ok all_ascii = true.
Proof. vm_compute. reflexivity. Qed.

Lemma escape_char_head c :
  exists a rest, escape_char c = String a rest /\ a <> dquote.
Proof.
  pose proof (all_ascii_forall _ escape_head_checked c) as H.
  unfold escape_head_ok in H.
  destruct (escape_char c) as [|a rest]; [done|].
  exists a, rest. split; [done|].
  apply negb_true_iff in H. by apply Ascii.eqb_neq in H.
Qed.

Lemma escape_char_prefix c c' :
  String.prefix (escape_char c) (escape_char c') = true -> c = c'.
Proof.
  pose proof (all_ascii_forall _ (all_ascii_forall _ escape_prefix_checked c) c') as H.
  cbv beta in H.
  intros Hp. rewrite Hp in H. rewrite orb_false_r in H.
  by apply Ascii.eqb_eq in H.
Qed.

Lemma escape_char_inj c c' x y :
  escape_char c +:+ x = escape_char c' +:+ y -> c = c' /\ x = y.
Proof.
  intros H.
  assert (c = c') as <-.
  { destruct (append_eq_prefix _ _ _ _ H) as [Hp|Hp].
    - by apply escape_char_prefix.
    - symmetry. by apply escape_char_prefix. }
  split; [done|]. by apply append_inv_head in H.
Qed.

(** A quoted string ends at its closing quote. *)
Lemma escape_inj s s' x y :
  escape s +:+ String dquote x = escape s' +:+ String dquote y -> s = s' /\ x = y.
Proof.
  revert s'. induction s as [|c s IH]; intros [|c' s']; cbn.
  - by intros [= ->].
  - destruct (escape_char_head c') as (a & rest & -> & Hne). cbn. by intros [= <-].
  - destruct (escape_char_head c) as (a & rest & -> & Hne). cbn. by intros [= ->].
  - rewrite !append_assoc. intros H.
    apply escape_char_inj in H as [-> H].
    apply IH in H as [-> ->]. done.
Qed.

Lemma quote_inj s s' x y : quote s +:+ x = quote s' +:+ y -> s = s' /\ x = y.
Proof.
  unfold quote. cbn. rewrite !append_assoc. cbn. intros [= H].
  by apply escape_inj.
Qed.

Lemma pretty_N_char_num k : is_num_char (pretty_N_char k) = true.
Proof. unfold pretty_N_char. by repeat case_match. Qed.

Lemma pretty_N_go_num x s :
  all_chars is_num_char s = true -> all_chars is_num_char (pretty_N_go x s) = true.
Proof.
  revert s. induction (N.lt_wf_0 x) as [x _ IH]; intros s Hs.
  assert (x = 0 \/ 0 < x)%N as [->|Hpos] by lia.
  - by rewrite pretty_N_go_0.
  - rewrite pretty_N_go_step by done. apply IH.
    + by apply N.div_lt.
    + cbn. by rewrite pretty_N_char_num.
Qed.

Lemma pretty_N_go_nonempty x s : s <> "" -> pretty_N_go x s <> "".
Proof.
  revert s. induction (N.lt_wf_0 x) as [x _ IH]; intros s Hs.
  assert (x = 0 \/ 0 < x)%N as [->|Hpos] by lia.
  - by rewrite pretty_N_go_0.
  - rewrite pretty_N_go_step by done. apply IH; [by apply N.div_lt|done].
Qed.

Lemma pretty_N_num (x : N) :
  all_chars is_num_char (pretty x) = true /\ pretty x <> "".
Proof.
  unfold pretty, pretty_N. case_decide as Hx; [done|]. split.
  - by apply pretty_N_go_num.
  - rewrite pretty_N_go_step by lia. by apply pretty_N_go_nonempty.
Qed.

Lemma pretty_Z_num (n : Z) :
  all_chars is_num_char (pretty n) = true /\ pretty n <> "".
Proof.
  destruct n as [|p|p]; [done|apply (pretty_N_num (Npos p))|].
  change (pretty (Z.neg p)) with ("-" +:+ pretty (Npos p)).
  destruct (pretty_N_num (Npos p)) as [H _]. simpl. by rewrite H.
Qed.

(** A numeral ends where the closing character stands. *)
Lemma numeral_inj a b r1 r2 :
  all_chars is_num_char a = true -> all_chars is_num_char b = true ->
  closes r1 = true -> closes r2 = true ->
  a +:+ r1 = b +:+ r2 -> a = b /\ r1 = r2.
Proof.
  assert (Hno : forall c r, is_num_char c = true -> closes (String c r) = false).
  { intros c r. unfold is_num_char, closes.
    destruct (Ascii.eqb_spec c ","), (Ascii.eqb_spec c "]"), (Ascii.eqb_spec c "}");
      subst; try done. }
  revert b. induction a as [|c a IH]; intros [|c' b] Ha Hb H1 H2; simpl.
  - done.
  - intros ->. apply andb_prop in Hb as [Hc _]. by rewrite (Hno _ _ Hc) in H1.
  - intros <-. apply andb_prop in Ha as [Hc _]. by rewrite (Hno _ _ Hc) in H2.
  - intros [= -> H]. apply andb_prop in Ha as [_ Ha]. apply andb_prop in Hb as [_ Hb].
    destruct (IH b Ha Hb H1 H2 H) as [-> ->]. done.
Qed.

Lemma faithful_obj r fs : faithful (VObj r fs) = faithful_fields fs.
Proof. induction fs as [|[k x] fs IH]; simpl in *; [done|by rewrite IH]. Qed.

Lemma strip_obj r fs : strip (VObj r fs) = VObj 0 (strip_fields fs).
Proof.
  simpl. f_equal. induction fs as [|[k x] fs IH]; simpl; [done|by rewrite IH].
Qed.

Lemma faithful_not_omitted v : faithful v = true -> omitted v = false.
Proof. by destruct v. Qed.

Lemma stringify_obj r fs :
  faithful_fields fs = true ->
  stringify (VObj r fs) = "{" +:+ array_join "," (map member fs) +:+ "}".
Proof.
  intros Hf. simpl. do 3 f_equal.
  induction fs as [|[k x] fs IH]; simpl; [done|].
  simpl in Hf. apply andb_prop in Hf as [Hx Hf].
  rewrite (faithful_not_omitted _ Hx), (IH Hf). done.
Qed.

(** *** The serialisation can be read back *)

Lemma append_nil_r (s : string) : s +:+ "" = s.
Proof. induction s as [|c s IH]; simpl; [done|by rewrite IH]. Qed.

Lemma array_join_cons sep x l r :
  array_join sep (x :: l) +:+ r
  = x +:+ match l with
          | [] => r
          | _ :: _ => sep +:+ array_join sep l +:+ r
          end.
Proof. destruct l; [done|]. cbn [array_join]. by rewrite !append_assoc. Qed.

Lemma stringify_head v :
  faithful v = true ->
  exists c s, stringify v = String c s /\ opens v c /\ closes (String c "") = false.
Proof.
  intros Hv. destruct v as [| |b|n|s0|r xs|r fs|r|r| |name]; try done.
  - eexists _, _; done.
  - destruct b; eexists _, _; done.
  - destruct (pretty_Z_num n) as [Hn Hne]. cbn [stringify].
    destruct (pretty n) as [|c s]; [done|]. exists c, s.
    cbn in Hn. apply andb_prop in Hn as [Hc _].
    split; [done|]. split; [exact Hc|].
    unfold is_num_char in Hc. cbn.
    destruct (Ascii.eqb_spec c ","), (Ascii.eqb_spec c "]"), (Ascii.eqb_spec c "}");
      subst; done.
  - eexists _, _; done.
  - eexists _, _; done.
  - rewrite faithful_obj in Hv. rewrite (stringify_obj _ _ Hv). eexists _, _; done.
Qed.

Lemma opens_kind v w c :
  faithful v = true -> faithful w = true -> opens v c -> opens w c -> kind v = kind w.
Proof.
  intros Hv Hw. unfold opens.
  destruct v as [| |[]| | | | | | | |], w as [| |[]| | | | | | | |]; try done; cbn;
    try (intros -> ?; done); try (intros ? ->; done).
Qed.

Lemma stringify_kind v w r1 r2 :
  faithful v = true -> faithful w = true ->
  stringify v +:+ r1 = stringify w +:+ r2 -> kind v = kind w.
Proof.
  intros Hv Hw H.
  destruct (stringify_head v Hv) as (c & s & Hs & Hop & _).
  destruct (stringify_head w Hw) as (c' & s' & Hs' & Hop' & _).
  rewrite Hs, Hs' in H. simpl in H. injection H as <- _.
  by apply (opens_kind v w c).
Qed.

Lemma elements_readable xs :
  Forall readable xs ->
  forallb faithful xs = true ->
  forall ys r1 r2,
    forallb faithful ys = true ->
    array_join "," (map stringify xs) +:+ "]" +:+ r1
    = array_join "," (map stringify ys) +:+ "]" +:+ r2 ->
    map strip xs = map strip ys /\ r1 = r2.
Proof.
  intros Hall. induction Hall as [|x xs Hx _ IH]; intros Hxs ys r1 r2 Hys H.
  - destruct ys as [|y ys]; [simpl in H; by injection H as ->|].
    exfalso. cbn [map] in H. rewrite array_join_cons in H.
    cbn in Hys. apply andb_prop in Hys as [Hy _].
    destruct (stringify_head y Hy) as (c & s & Hs & _ & Hc).
    rewrite Hs in H. simpl in H. injection H as <- _. done.
  - cbn in Hxs. apply andb_prop in Hxs as [Hfx Hxs].
    destruct ys as [|y ys].
    { exfalso. cbn [map] in H. rewrite array_join_cons in H.
      destruct (stringify_head x Hfx) as (c & s & Hs & _ & Hc).
      rewrite Hs in H. simpl in H. injection H as -> _. done. }
    cbn in Hys. apply andb_prop in Hys as [Hfy Hys].
    cbn [map] in H. rewrite !array_join_cons in H.
    apply (Hx Hfx y) in H as [Hxy H]; [|done|by destruct (map stringify xs)
                                             |by destruct (map stringify ys)].
    cbn [map]. rewrite Hxy.
    destruct xs as [|x' xs], ys as [|y' ys]; cbn [map] in H.
    + simpl in H. by injection H as ->.
    + simpl in H. discriminate H.
    + simpl in H. discriminate H.
    + simpl in H. injection H as H.
      destruct (IH Hxs (y' :: ys) r1 r2 Hys H) as [-> ->]. done.
Qed.

Lemma member_app k x r :
  member (k, x) +:+ r = quote k +:+ ":" +:+ stringify x +:+ r.
Proof. unfold member. cbn [fst snd]. by rewrite !append_assoc. Qed.

Lemma member_head k x r : exists s, member (k, x) +:+ r = String dquote s.
Proof. rewrite member_app. unfold quote. simpl. eauto. Qed.

Lemma members_readable fs :
  Forall (fun kv => readable kv.2) fs ->
  faithful_fields fs = true ->
  forall gs r1 r2,
    faithful_fields gs = true ->
    array_join "," (map member fs) +:+ "}" +:+ r1
    = array_join "," (map member gs) +:+ "}" +:+ r2 ->
    strip_fields fs = strip_fields gs /\ r1 = r2.
Proof.
  intros Hall. induction Hall as [|[k x] fs Hx _ IH]; intros Hfs gs r1 r2 Hgs H.
  - destruct gs as [|[k' y] gs]; [simpl in H; by injection H as ->|].
    exfalso. cbn [map] in H. rewrite array_join_cons in H.
    destruct (member_head k' y
                match map member gs with
                | [] => "}" +:+ r2
                | _ :: _ => "," +:+ array_join "," (map member gs) +:+ "}" +:+ r2
                end) as [s Hs].
    rewrite Hs in H. discriminate H.
  - cbn in Hfs. apply andb_prop in Hfs as [Hfx Hfs].
    destruct gs as [|[k' y] gs].
    { exfalso. cbn [map] in H. rewrite array_join_cons in H.
      destruct (member_head k x
                  match map member fs with
                  | [] => "}" +:+ r1
                  | _ :: _ => "," +:+ array_join "," (map member fs) +:+ "}" +:+ r1
                  end) as [s Hs].
      rewrite Hs in H. discriminate H. }
    cbn in Hgs. apply andb_prop in Hgs as [Hfy Hgs].
    cbn [map] in H. rewrite !array_join_cons, !member_app in H.
    apply quote_inj in H as [<- H]. apply append_inv_head in H.
    cbn [snd] in Hx.
    apply (Hx Hfx y) in H as [Hxy H]; [|done|by destruct (map member fs)
                                             |by destruct (map member gs)].
    unfold strip_fields. cbn [map fst snd]. rewrite Hxy.
    destruct fs as [|f' fs], gs as [|g' gs]; cbn [map] in H.
    + by apply append_inv_head in H as ->.
    + discriminate H.
    + discriminate H.
    + apply append_inv_head in H.
      destruct (IH Hfs (g' :: gs) r1 r2 Hgs H) as [Heq ->].
      unfold strip_fields in Heq. by rewrite Heq.
Qed.

Lemma stringify_readable v : readable v.
Proof.
  induction v as [| |b|n|s|r xs IHxs|r fs IHfs|r|r| |name] using value_ind;
    intros Hv w r1 r2 Hw Hc1 Hc2 H;
    pose proof (stringify_kind _ _ _ _ Hv Hw H) as Hk;
    try discriminate Hv.
  - destruct w as [| |[]| | | | | | | |]; try discriminate Hk.
    split; [done|]. by apply append_inv_head in H.
  - destruct b, w as [| |[]| | | | | | | |]; try discriminate Hk;
      (split; [done|]; by apply append_inv_head in H).
  - destruct w as [| |[]|m| | | | | | |]; try discriminate Hk.
    cbn [stringify] in H.
    destruct (pretty_Z_num n) as [Hn _], (pretty_Z_num m) as [Hm _].
    destruct (numeral_inj _ _ _ _ Hn Hm Hc1 Hc2 H) as [Heq ->].
    apply (inj pretty) in Heq as ->. done.
  - destruct w as [| |[]| |s'| | | | | |]; try discriminate Hk.
    cbn [stringify] in H. apply quote_inj in H as [-> ->]. done.
  - destruct w as [| |[]| | |r' ys| | | | |]; try discriminate Hk.
    cbn [stringify] in H. rewrite !append_assoc in H.
    apply append_inv_head in H.
    cbn [faithful] in Hv, Hw.
    destruct (elements_readable xs IHxs Hv ys r1 r2 Hw H) as [Heq ->].
    cbn [strip]. by rewrite Heq.
  - destruct w as [| |[]| | | |r' gs| | | |]; try discriminate Hk.
    rewrite faithful_obj in Hv, Hw.
    rewrite (stringify_obj _ _ Hv), (stringify_obj _ _ Hw) in H.
    rewrite !append_assoc in H. apply append_inv_head in H.
    destruct (members_readable fs IHfs Hv gs r1 r2 Hw H) as [Heq ->].
    rewrite !strip_obj. by rewrite Heq.
Qed.

(** The key ignores the identities of the objects it serialises. *)
Lemma stringify_strip v : stringify (strip v) = stringify v.
Proof.
  induction v as [| |b|n|s|r xs IHxs|r fs IHfs|r|r| |name] using value_ind; try done.
  - cbn [strip stringify]. do 3 f_equal.
    induction IHxs as [|x xs Hx _ IH]; cbn [map]; [done|]. by rewrite Hx, IH.
  - cbn [strip stringify]. do 3 f_equal.
    induction IHfs as [|[k x] fs Hx _ IH]; [done|].
    cbn [snd] in Hx. rewrite <- Hx at 1. rewrite IH.
    by destruct x.
Qed.

Lemma all_readable (xs : list value) : Forall readable xs.
Proof. apply Forall_forall. intros x _. apply stringify_readable. Qed.

(** Equal keys of faithful triples: the triples agree up to identities. *)
Lemma cache_key_inj ns path args ns' path' args' :
  forallb faithful (ns :: path :: args) = true ->
  forallb faithful (ns' :: path' :: args') = true ->
  cache_key ns path args = cache_key ns' path' args' ->
  map strip (ns :: path :: args) = map strip (ns' :: path' :: args').
Proof.
  intros Hv Hw H. unfold cache_key in H.
  destruct (stringify_readable (VArr 0 (ns :: path :: args)) Hv
              (VArr 0 (ns' :: path' :: args')) "" "" Hw eq_refl eq_refl) as [Heq _].
  { by rewrite !append_nil_r. }
  cbn [strip] in Heq. injection Heq as Ha Hp Hn. cbn [map]. by rewrite Ha, Hp, Hn.
Qed.

(** Within one configuration the namespace is shared and may be anything. *)
Lemma cache_key_inj_same_namespace ns path args path' args' :
  forallb faithful (path :: args) = true ->
  forallb faithful (path' :: args') = true ->
  cache_key ns path args = cache_key ns path' args' ->
  map strip (path :: args) = map strip (path' :: args').
Proof.
  intros Hv Hw H. unfold cache_key in H. cbn [stringify map] in H.
  apply append_inv_head in H.
  rewrite !(array_join_cons "," (stringify ns)) in H.
  apply append_inv_head in H. apply append_inv_head in H.
  destruct (elements_readable (path :: args) (all_readable _) Hv
              (path' :: args') "" "" Hw) as [Heq _]; [|done].
  exact H.
Qed.

Lemma cache_key_strip ns path args ns' path' args' :
  map strip (ns :: path :: args) = map strip (ns' :: path' :: args') ->
  cache_key ns path args = cache_key ns' path' args'.
Proof.
  intros H. unfold cache_key.
  rewrite <- (stringify_strip (VArr 0 (ns :: path :: args))).
  rewrite <- (stringify_strip (VArr 0 (ns' :: path' :: args'))).
  cbn [strip]. by rewrite H.
Qed.

(** C5, refuted as stated: the argument sequences [[undefined]] and [[null]]
    differ and give the same key. *)
Lemma C5_undefined_and_null_share_a_key :
  cache_key (VStr "foo") (VStr "m") [VUndef] = cache_key (VStr "foo") (VStr "m") [VNull]
  /\ (VStr "foo", VStr "m", [VUndef]) <> (VStr "foo", VStr "m", [VNull])
  /\ map strip [VUndef] <> map strip [VNull].
Proof. conjuncts; [evaluate|discriminate|discriminate]. Qed.

(** C5, as the code has it. The key is a function of the triple and does not
    depend on the identity of the objects in it. Two triples made of values
    that JSON renders without loss (strings, booleans, [null], integers a JS
    number holds exactly, arrays and objects of these) have equal keys only
    if they are equal up to the identity of their objects; the namespace,
    which one configuration shares, need not be such a value. *)
Theorem C5_cache_key_separates_json_values ns path args ns' path' args' :
  forallb faithful (path :: args) = true ->
  forallb faithful (path' :: args') = true ->
  (map strip (ns :: path :: args) = map strip (ns' :: path' :: args') ->
   cache_key ns path args = cache_key ns' path' args')
  /\ (faithful ns = true -> faithful ns' = true ->
      cache_key ns path args = cache_key ns' path' args' ->
      map strip (ns :: path :: args) = map strip (ns' :: path' :: args'))
  /\ (cache_key ns path args = cache_key ns path' args' ->
      map strip (path :: args) = map strip (path' :: args')).
Proof.
  intros Hv Hw. split; [apply cache_key_strip|]. split.
  - intros Hn Hn'. apply cache_key_inj; cbn [forallb]; [by rewrite Hn|by rewrite Hn'].
  - by apply cache_key_inj_same_namespace.
Qed.

Lemma C5_cache_key_separates_json_values_witness :
  (map strip [VStr "foo"; VStr "getItem"; VNum 1; VArr 3 [VStr "a"]]
   = map strip [VStr "foo"; VStr "getItem"; VNum 1; VArr 4 [VStr "a"]] ->
   cache_key (VStr "foo") (VStr "getItem") [VNum 1; VArr 3 [VStr "a"]]
   = cache_key (VStr "foo") (VStr "getItem") [VNum 1; VArr 4 [VStr "a"]])
  /\ (faithful (VStr "foo") = true -> faithful (VStr "foo") = true ->
      cache_key (VStr "foo") (VStr "getItem") [VNum 1; VArr 3 [VStr "a"]]
      = cache_key (VStr "foo") (VStr "getItem") [VNum 1; VArr 4 [VStr "a"]] ->
      map strip [VStr "foo"; VStr "getItem"; VNum 1; VArr 3 [VStr "a"]]
      = map strip [VStr "foo"; VStr "getItem"; VNum 1; VArr 4 [VStr "a"]])
  /\ (cache_key (VStr "foo") (VStr "getItem") [VNum 1; VArr 3 [VStr "a"]]
      = cache_key (VStr "foo") (VStr "getItem") [VNum 1; VArr 4 [VStr "a"]] ->
      map strip [VStr "getItem"; VNum 1; VArr 3 [VStr "a"]]
      = map strip [VStr "getItem"; VNum 1; VArr 4 [VStr "a"]]).
Proof.
  apply (C5_cache_key_separates_json_values (VStr "foo") (VStr "getItem")
           [VNum 1; VArr 3 [VStr "a"]] (VStr "foo") (VStr "getItem")
           [VNum 1; VArr 4 [VStr "a"]]).
  - vm_compute. reflexivity.
  - vm_compute. reflexivity.
Defined.
